(** * DevCatalyst: the producer-consumer queue, the thread pool and the
      Mandelbrot escape-time loop

    Three C++ tutorials are embedded here.

    - [PCQ]: [ProducerConsumerQueue<T>], a queue bounded by [max_size_],
      guarded by one mutex and two condition variables.
    - [ThreadPool]: a fixed set of worker threads draining a queue of
      [std::function<void()>] tasks, with a [stop] flag set by the
      destructor.
    - [Mandelbrot]: [mandelbrotIterations], a bounded [for] loop over
      [std::complex<double>].
    - [Render]: [mapIterationsToColor] and the loops of the Mandelbrot
      [main], which fill [imageData] and print a preview of it.

    Every access to the shared data of the two concurrent classes happens
    while the class's mutex is held, so what a thread does between taking
    the mutex and giving it up is one step, embedded as a function on the
    protected data.  A predicate-checked [condition_variable::wait] lets
    the step go on only from a state that satisfies the predicate; from
    any other state the thread gives up the mutex and sleeps, and the
    function answers that the caller waits.

    Threads are interleaved by a schedule, a list of moves.  A thread
    that sleeps in a [wait] moves again only after a [notify_one] or
    [notify_all] has woken it, or after a spurious wakeup, which the
    schedule may contain at any place; awake, it tests its predicate
    again.  What is written to [std::cout] is left out. *)

From Stdlib Require Import ZArith NArith Lia PrimFloat.
From Stdlib Require Uint63 FloatOps.
From stdpp Require Import base list strings.

Set Default Proof Using "Type".

(** ** ProducerConsumerQueue<T> *)

Module PCQ.
Section Queue.
Context {T : Type}.

(** The data protected by [mtx_]: the [std::queue] is the list of its
    elements, front first; [max_size_] is a [size_t], which the class
    only compares with [q_.size()]. *)
Record t := mk { q_ : list T; max_size_ : N }.

(** [explicit ProducerConsumerQueue(size_t max_size)] *)
Definition make (max_size : N) : t := {| q_ := []; max_size_ := max_size |}.

(** [q_.size()] *)
Definition size (s : t) : N := N.of_nat (length (q_ s)).

(** The predicate of [cv_full_.wait]: [q_.size() < max_size_]. *)
Definition has_space (s : t) : bool := (size s <? max_size_ s)%N.

(** The predicate of [cv_empty_.wait]: [!q_.empty()]. *)
Definition has_item (s : t) : bool :=
  match q_ s with [] => false | _ :: _ => true end.

(** [push]: [None] while the caller waits on [cv_full_]; otherwise the
    item is appended at the back. *)
Definition push (item : T) (s : t) : option t :=
  if has_space s
  then Some {| q_ := q_ s ++ [item]; max_size_ := max_size_ s |}
  else None.

(** [pop]: [None] while the caller waits on [cv_empty_]; otherwise the
    front item is removed and returned. *)
Definition pop (s : t) : option (T * t) :=
  if has_item s
  then match q_ s with
       | item :: rest => Some (item, {| q_ := rest; max_size_ := max_size_ s |})
       | [] => None
       end
  else None.

(** One thread calling [push] on each item in turn; it gets through
    only if none of the calls has to wait. *)
Fixpoint push_all (items : list T) (s : t) : option t :=
  match items with
  | [] => Some s
  | item :: more =>
      match push item s with
      | Some s' => push_all more s'
      | None => None
      end
  end.

(** [n] calls of [pop] in a row, with the items they return. *)
Fixpoint pop_n (n : nat) (s : t) : option (list T * t) :=
  match n with
  | O => Some ([], s)
  | S k =>
      match pop s with
      | Some (item, s') =>
          match pop_n k s' with
          | Some (items, s'') => Some (item :: items, s'')
          | None => None
          end
      | None => None
      end
  end.

(** *** Threads sharing one queue *)

(** What a thread still has to do, as the lambdas of [main] do: a run of
    calls on the shared queue. *)
Inductive call := Push (item : T) | Pop.

(** A call that has completed, with the thread that made it. *)
Inductive event := Pushed (tid : nat) (item : T) | Popped (tid : nat) (item : T).

(** A thread: the calls it has yet to make, and whether it sleeps in the
    [wait] of the first of them. *)
Record thread := mkThread { todo : list call; asleep : bool }.

Record sys := mkSys { chan : t; threads : list thread }.

(** The threads that wait on [cv_full_] are those asleep in a [push];
    the ones that wait on [cv_empty_] are those asleep in a [pop]. *)
Definition on_cv_full (th : thread) : bool :=
  asleep th && match todo th with Push _ :: _ => true | _ => false end.

Definition on_cv_empty (th : thread) : bool :=
  asleep th && match todo th with Pop :: _ => true | _ => false end.

Definition awaken (th : thread) : thread := {| todo := todo th; asleep := false |}.

(** The first thread that waits on [cv] wakes. *)
Fixpoint wake_first (cv : thread → bool) (ths : list thread) : list thread :=
  match ths with
  | [] => []
  | th :: rest => if cv th then awaken th :: rest else th :: wake_first cv rest
  end.

(** [notify_one]: if any thread waits on [cv], one of them wakes.  Which
    one is not determined; [pick] names it, and when thread [pick] does
    not wait on [cv] the first one that does is taken. *)
Definition notify_one (cv : thread → bool) (pick : nat) (ths : list thread) : list thread :=
  match ths !! pick with
  | Some th => if cv th then <[pick := awaken th]> ths else wake_first cv ths
  | None => wake_first cv ths
  end.

(** What the scheduler can make happen next: thread [tid] runs, and if
    its call completes and notifies, [pick] chooses the thread that
    wakes; or thread [tid] wakes from its [wait] without having been
    notified. *)
Inductive move := Run (tid pick : nat) | Spurious (tid : nat).

(** The thread that runs is in its call with [mtx_] held, until it
    leaves the call or goes to sleep in [wait]: it tests the predicate of
    the wait, sleeps if that is false, and otherwise changes the queue and
    notifies the other condition variable.  A thread that sleeps does
    nothing when run. *)
Definition step (m : move) (s : sys) : option event * sys :=
  match m with
  | Run tid pick =>
      match threads s !! tid with
      | Some th =>
          if asleep th then (None, s)
          else
            match todo th with
            | Push item :: rest =>
                match push item (chan s) with
                | Some c =>
                    (Some (Pushed tid item),
                     {| chan := c;
                        threads := notify_one on_cv_empty pick
                                     (<[tid := mkThread rest false]> (threads s)) |})
                | None =>
                    (None,
                     {| chan := chan s;
                        threads := <[tid := mkThread (todo th) true]> (threads s) |})
                end
            | Pop :: rest =>
                match pop (chan s) with
                | Some (item, c) =>
                    (Some (Popped tid item),
                     {| chan := c;
                        threads := notify_one on_cv_full pick
                                     (<[tid := mkThread rest false]> (threads s)) |})
                | None =>
                    (None,
                     {| chan := chan s;
                        threads := <[tid := mkThread (todo th) true]> (threads s) |})
                end
            | [] => (None, s)
            end
      | None => (None, s)
      end
  | Spurious tid =>
      match threads s !! tid with
      | Some th =>
          (None, {| chan := chan s; threads := <[tid := awaken th]> (threads s) |})
      | None => (None, s)
      end
  end.

(** A schedule is run from left to right; the calls that complete are
    collected in order. *)
Fixpoint run (sched : list move) (s : sys) : list event * sys :=
  match sched with
  | [] => ([], s)
  | m :: later =>
      let (e, s') := step m s in
      let (es, s'') := run later s' in
      (match e with Some e => e :: es | None => es end, s'')
  end.

(** A new queue, and threads that have not started on their calls. *)
Definition init (max_size : N) (programs : list (list call)) : sys :=
  {| chan := make max_size; threads := (fun p => mkThread p false) <$> programs |}.

Definition pushed_items (es : list event) : list T :=
  flat_map (fun e => match e with Pushed _ item => [item] | Popped _ _ => [] end) es.

Definition popped_items (es : list event) : list T :=
  flat_map (fun e => match e with Popped _ item => [item] | Pushed _ _ => [] end) es.

Definition is_pop (e : event) : bool :=
  match e with Popped _ _ => true | Pushed _ _ => false end.

End Queue.
Arguments t : clear implicits.
Arguments call : clear implicits.
Arguments event : clear implicits.
Arguments thread : clear implicits.
Arguments sys : clear implicits.
End PCQ.

(** *** The queue of [main], scaled down *)

Module PCQDemo.
Import PCQ.

(** One producer and one consumer, three [int] items. *)
Definition producer : list (call Z) := [Push 1%Z; Push 2%Z; Push 3%Z].
Definition consumer : list (call Z) := [Pop; Pop; Pop].

(** [ProducerConsumerQueue<int> queue(2)] shared by the two threads;
    thread 0 is the producer, thread 1 the consumer. *)
Definition start : sys Z := init 2 [producer; consumer].

(** The producer runs three times, and a fourth time while it sleeps;
    the consumer pops; the producer runs again; the consumer pops twice. *)
Definition blocked_push_schedule : list move :=
  [Run 0 1; Run 0 1; Run 0 1; Run 0 1; Run 1 0; Run 0 1; Run 1 0; Run 1 0].

(** A consumer that pops once and then three more times, with the same
    producer on the same queue. *)
Definition four_pops : list (call Z) := [Pop; Pop; Pop; Pop].

Definition start_four_pops : sys Z := init 2 [producer; four_pops].

End PCQDemo.

(** ** ThreadPool *)

Module ThreadPool.
Section Pool.

(** Everything a task can read and write; the pool itself is not part of
    it, so a task does not call back into the pool that runs it. *)
Context {World : Type}.

(** How the call [task()] ends: it returns, it throws, or it never ends.
    The first two leave a world behind. *)
Inductive outcome := Returns (w : World) | Throws (w : World) | Diverges.

(** [std::function<void()>] *)
Definition Task : Type := World → outcome.

(** [std::runtime_error], with its message. *)
Inductive exn := runtime_error (what : string).

(** The data protected by [queue_mutex]: the [tasks] queue, front first,
    and the [stop] flag. *)
Record t := mk { tasks : list Task; stop : bool }.

(** The members as the constructor leaves them: [stop(false)] and an
    empty queue. *)
Definition make : t := {| tasks := []; stop := false |}.

(** [tasks.empty()] *)
Definition empty (p : t) : bool :=
  match tasks p with [] => true | _ :: _ => false end.

(** The predicate the worker waits on: [stop || !tasks.empty()]. *)
Definition wake (p : t) : bool := stop p || negb (empty p).

(** What the locked block of the worker loop comes to. *)
Inductive taken :=
  | Waits                          (* asleep in [condition.wait] *)
  | Exits                          (* [return]: the worker thread ends *)
  | Takes (task : Task) (p : t).   (* the front task, and the pool without it *)

(** The locked block of the worker loop.  The last branch is never taken:
    there [wake p] holds and [stop p && empty p] does not, so the queue
    has a front. *)
Definition take (p : t) : taken :=
  if wake p then
    if stop p && empty p then Exits
    else match tasks p with
         | task :: rest => Takes task {| tasks := rest; stop := stop p |}
         | [] => Waits
         end
  else Waits.

(** [enqueue]: the exception thrown, if any, and the pool afterwards. *)
Definition enqueue (f : Task) (p : t) : option exn * t :=
  if stop p
  then (Some (runtime_error "enqueue on stopped ThreadPool"%string), p)
  else (None, {| tasks := tasks p ++ [f]; stop := stop p |}).

(** The locked block of the destructor: [stop = true]. *)
Definition request_stop (p : t) : t := {| tasks := tasks p; stop := true |}.

(** [n] passes through the worker's locked block, each of which has to
    hand out a task; the tasks are returned in the order taken. *)
Fixpoint take_n (n : nat) (p : t) : option (list Task * t) :=
  match n with
  | O => Some ([], p)
  | S k =>
      match take p with
      | Takes task p' =>
          match take_n k p' with
          | Some (more, p'') => Some (task :: more, p'')
          | None => None
          end
      | Waits | Exits => None
      end
  end.

(** *** The threads of a pool *)

(** Where a worker is in its loop. *)
Inductive worker :=
  | Polling                 (* at the top of the loop, or woken: about to test the predicate *)
  | Sleeping                (* asleep in [condition.wait], the mutex given up *)
  | Running (task : Task)   (* past the locked block, at [task()] *)
  | Exited.                 (* returned from the lambda *)

(** The thread that owns the pool does what [main] does: it enqueues
    tasks, and then the pool is destroyed.  Both [enqueue] and the
    destructor notify after they have given up the mutex. *)
Inductive owner :=
  | Submitting (pending : list Task)  (* tasks it has yet to enqueue *)
  | Signalling (pending : list Task)  (* in [enqueue], task stored, at [notify_one] *)
  | Broadcasting                      (* in the destructor, [stop] set, at [notify_all] *)
  | Joining (k : nat)                 (* in the destructor, at [workers[k].join()] *)
  | Destroyed.                        (* the destructor has returned *)

(** What the scheduler can make happen next: the owner moves, and if the
    move is a [notify_one], [pick] chooses the worker that wakes; worker
    [i] moves; or worker [i] wakes without having been notified. *)
Inductive move := Own (pick : nat) | Work (i : nat) | Spurious (i : nat).

(** [executed] lists the tasks whose call has returned, oldest first;
    [terminated] is set when an exception leaves a thread function, where
    C++ calls [std::terminate]. *)
Record sys := mkSys {
  pool : t;
  workers : list worker;
  main : owner;
  world : World;
  executed : list Task;
  terminated : bool
}.

(** The pool after [ThreadPool pool(num_threads)], with an owner that
    will enqueue [todo]. *)
Definition init (num_threads : nat) (todo : list Task) (w : World) : sys :=
  {| pool := make; workers := replicate num_threads Polling;
     main := Submitting todo; world := w; executed := []; terminated := false |}.

Definition set_pool (p : t) (s : sys) : sys :=
  {| pool := p; workers := workers s; main := main s; world := world s;
     executed := executed s; terminated := terminated s |}.

Definition set_workers (ws : list worker) (s : sys) : sys :=
  {| pool := pool s; workers := ws; main := main s; world := world s;
     executed := executed s; terminated := terminated s |}.

Definition set_worker (i : nat) (w : worker) (s : sys) : sys :=
  set_workers (<[i := w]> (workers s)) s.

Definition set_main (o : owner) (s : sys) : sys :=
  {| pool := pool s; workers := workers s; main := o; world := world s;
     executed := executed s; terminated := terminated s |}.

Definition set_world (w : World) (s : sys) : sys :=
  {| pool := pool s; workers := workers s; main := main s; world := w;
     executed := executed s; terminated := terminated s |}.

Definition log_executed (task : Task) (s : sys) : sys :=
  {| pool := pool s; workers := workers s; main := main s; world := world s;
     executed := executed s ++ [task]; terminated := terminated s |}.

Definition terminate (s : sys) : sys :=
  {| pool := pool s; workers := workers s; main := main s; world := world s;
     executed := executed s; terminated := true |}.

(** A worker that is woken tests its predicate next. *)
Definition awaken (w : worker) : worker :=
  match w with Sleeping => Polling | Polling | Running _ | Exited => w end.

(** The first sleeping worker wakes. *)
Fixpoint wake_first (ws : list worker) : list worker :=
  match ws with
  | [] => []
  | Sleeping :: rest => Polling :: rest
  | w :: rest => w :: wake_first rest
  end.

(** [condition.notify_one()]: if any worker sleeps, one of them wakes.
    Which one is not determined; [pick] names it, and when worker [pick]
    does not sleep the first one that does is taken. *)
Definition notify_one (pick : nat) (ws : list worker) : list worker :=
  match ws !! pick with
  | Some Sleeping => <[pick := Polling]> ws
  | _ => wake_first ws
  end.

(** [condition.notify_all()]: every sleeping worker wakes. *)
Definition notify_all (ws : list worker) : list worker := awaken <$> ws.

(** A worker as a notification leaves it: as it was, or woken. *)
Definition notified (w w' : worker) : Prop := w' = w ∨ w' = awaken w.

(** The owner's next move.  An exception that [enqueue] throws is not
    caught by the owner. *)
Definition owner_step (pick : nat) (s : sys) : sys :=
  match main s with
  | Submitting (f :: rest) =>
      match enqueue f (pool s) with
      | (None, p) => set_main (Signalling rest) (set_pool p s)
      | (Some _, _) => terminate s
      end
  | Signalling rest =>
      set_main (Submitting rest) (set_workers (notify_one pick (workers s)) s)
  | Submitting [] => set_main Broadcasting (set_pool (request_stop (pool s)) s)
  | Broadcasting => set_main (Joining 0) (set_workers (notify_all (workers s)) s)
  | Joining k =>
      match workers s !! k with
      | Some Exited => set_main (Joining (S k)) s
      | Some _ => s
      | None => set_main Destroyed s
      end
  | Destroyed => s
  end.

(** Worker [i]'s next move: the locked block, in which it may go to
    sleep, or the call [task()], which nothing in the loop catches.  A
    worker that sleeps does not move. *)
Definition worker_step (i : nat) (s : sys) : sys :=
  match workers s !! i with
  | Some Polling =>
      match take (pool s) with
      | Waits => set_worker i Sleeping s
      | Exits => set_worker i Exited s
      | Takes task p => set_worker i (Running task) (set_pool p s)
      end
  | Some (Running task) =>
      match task (world s) with
      | Returns w => set_worker i Polling (log_executed task (set_world w s))
      | Throws w => terminate (set_world w s)
      | Diverges => s
      end
  | Some Sleeping | Some Exited | None => s
  end.

(** Worker [i] wakes from [condition.wait] on its own. *)
Definition spurious_wakeup (i : nat) (s : sys) : sys :=
  match workers s !! i with
  | Some Sleeping => set_worker i Polling s
  | _ => s
  end.

(** A move changes nothing once the program has been terminated. *)
Definition step (m : move) (s : sys) : sys :=
  if terminated s then s
  else match m with
       | Own pick => owner_step pick s
       | Work i => worker_step i s
       | Spurious i => spurious_wakeup i s
       end.

Definition run (sched : list move) (s : sys) : sys :=
  foldl (fun s m => step m s) s sched.

(** Whether a move is one that a thread makes by itself. *)
Definition unprompted (m : move) : bool :=
  match m with Own _ | Work _ => true | Spurious _ => false end.

(** The tasks the workers are in the middle of. *)
Definition flight (w : worker) : list Task :=
  match w with Running task => [task] | Polling | Sleeping | Exited => [] end.

Definition in_flight (ws : list worker) : list Task := flat_map flight ws.

(** The tasks the owner has yet to enqueue. *)
Definition pending (o : owner) : list Task :=
  match o with
  | Submitting todo | Signalling todo => todo
  | Broadcasting | Joining _ | Destroyed => []
  end.

(** A bound on the unprompted moves that are left.  A worker's cost
    falls when it returns from a task to the top of its loop, when it
    goes to sleep, and when it exits.  Taking a task raises it by one,
    which the task pays for: queued, a task counts two.  Being woken
    raises it by one, which the owner pays for: [notify_one] wakes at
    most one worker and [notify_all] at most all of them. *)
Definition worker_cost (w : worker) : nat :=
  match w with Exited => 0 | Sleeping => 1 | Polling => 2 | Running _ => 3 end.

Definition owner_cost (num_threads : nat) (o : owner) : nat :=
  match o with
  | Signalling _ => 2 * num_threads + 5
  | Submitting _ => 2 * num_threads + 3
  | Broadcasting => 2 * num_threads + 2
  | Joining k => S (num_threads - k)
  | Destroyed => 0
  end.

Definition moves_left (s : sys) : nat :=
  5 * length (pending (main s)) + 2 * length (tasks (pool s))
  + sum_list (worker_cost <$> workers s)
  + owner_cost (length (workers s)) (main s).

(** A task that returns, whatever the world it is run in. *)
Definition always_returns (task : Task) : Prop := ∀ w, ∃ w', task w = Returns w'.

(** Whether [stop] has been set: the owner is in the destructor, past
    its locked block. *)
Definition stopping (o : owner) : bool :=
  match o with
  | Submitting _ | Signalling _ => false
  | Broadcasting | Joining _ | Destroyed => true
  end.

(** Whether the destructor's [notify_all] has been made. *)
Definition joining (o : owner) : bool :=
  match o with
  | Submitting _ | Signalling _ | Broadcasting => false
  | Joining _ | Destroyed => true
  end.

(** What holds in every state of a pool of [num_threads] workers whose
    owner set out to enqueue [todo]: each of those tasks is in exactly one
    place; [stop] is set exactly from the destructor's locked block on; a
    worker has exited only once [stop] was set and the queue was empty;
    after the destructor's [notify_all] no worker sleeps; and the
    destructor has got past the workers that it has joined. *)
Record consistent (num_threads : nat) (todo : list Task) (s : sys) : Prop := {
  cons_workers : length (workers s) = num_threads;
  cons_tasks :
    todo ≡ₚ executed s ++ in_flight (workers s) ++ tasks (pool s) ++ pending (main s);
  cons_stop : stop (pool s) = stopping (main s);
  cons_exited : ∀ i, workers s !! i = Some Exited →
    stop (pool s) = true ∧ tasks (pool s) = [];
  cons_awake : ∀ i, joining (main s) = true → workers s !! i ≠ Some Sleeping;
  cons_joined : ∀ k i, main s = Joining k → i < k → workers s !! i = Some Exited;
  cons_destroyed : ∀ i w, main s = Destroyed → workers s !! i = Some w → w = Exited
}.

End Pool.
Arguments outcome : clear implicits.
Arguments Task : clear implicits.
Arguments t : clear implicits.
Arguments taken : clear implicits.
Arguments worker : clear implicits.
Arguments owner : clear implicits.
Arguments sys : clear implicits.
End ThreadPool.

(** *** Tasks that write to a log *)

Module PoolDemo.
Import ThreadPool.

(** The world of these tasks is the list of numbers written so far. *)
Definition say (n : nat) : Task (list nat) := fun w => Returns (w ++ [n]).

(** A task that throws at once. *)
Definition fail : Task (list nat) := fun w => Throws w.

(** The owner enqueues one task: the locked block, then [notify_one]. *)
Definition submit_one : list move := [Own 0; Own 0].

(** The owner enters the destructor: [stop = true], then [notify_all]. *)
Definition begin_shutdown : list move := [Own 0; Own 0].

(** Two workers and three tasks.  Both workers find the queue empty and
    go to sleep.  The owner enqueues the first task and wakes worker 1,
    which takes it and runs it.  The owner enqueues the other two; worker
    0, woken, takes the second and runs it.  The owner enters the
    destructor; worker 0 takes and runs the third task.  Both workers then
    exit, and the owner joins them and leaves the destructor. *)
Definition shutdown_schedule : list move :=
  [Work 0; Work 1; Own 1; Own 1; Work 1; Work 1;
   Own 0; Own 0; Own 0; Own 0; Work 0; Work 0;
   Own 0; Own 0; Work 0; Work 0; Work 0; Work 1;
   Own 0; Own 0; Own 0].

End PoolDemo.

(** ** mandelbrotIterations *)

Module Mandelbrot.

(** [std::complex<double>]: real and imaginary part, each a binary64. *)
Definition complex : Type := float * float.

Definition MAX_ITERATIONS : Z := 100.

(** [operator+] of [std::complex]: componentwise. *)
Definition cadd (a b : complex) : complex :=
  (PrimFloat.add (fst a) (fst b), PrimFloat.add (snd a) (snd b)).

Section Loop.
(** [std::pow(z, n)] and [std::abs(z)] come from the C++ library. *)
Variable std_pow : complex -> Z -> complex.
Variable std_abs : complex -> float.

(** The loop body's assignment, [z = std::pow(z, 2) + c]. *)
Definition next (c z : complex) : complex := cadd (std_pow z 2) c.

(** The test [std::abs(z) > 2.0]. *)
Definition escaped (z : complex) : bool := PrimFloat.ltb 2%float (std_abs z).

(** The [for] loop entered with counter [i] and iterate [z].  One unit
    of [fuel] pays for one execution of the body; [None] means the fuel
    ran out. *)
Fixpoint for_loop (fuel : nat) (c : complex) (i : Z) (z : complex) : option Z :=
  if (i <? MAX_ITERATIONS)%Z then
    match fuel with
    | O => None
    | S fuel' =>
        let z' := next c z in
        if escaped z' then Some i else for_loop fuel' c (i + 1)%Z z'
    end
  else Some MAX_ITERATIONS.

Definition mandelbrotIterations (c : complex) : option Z :=
  for_loop (Z.to_nat MAX_ITERATIONS) c 0%Z (0%float, 0%float).

(** The iterate after [k] executions of the body. *)
Fixpoint iterate (c : complex) (k : nat) : complex :=
  match k with
  | O => (0%float, 0%float)
  | S k' => next c (iterate c k')
  end.

End Loop.
End Mandelbrot.

(** *** The library calls, for running the loop *)

Module MandelbrotDemo.
Import Mandelbrot.

(** [operator*] of [std::complex], by the textbook formula. *)
Definition cmul (a b : complex) : complex :=
  (PrimFloat.sub (PrimFloat.mul (fst a) (fst b)) (PrimFloat.mul (snd a) (snd b)),
   PrimFloat.add (PrimFloat.mul (fst a) (snd b)) (PrimFloat.mul (snd a) (fst b))).

(** [std::pow(z, n)] for [n >= 0], as [n] multiplications. *)
Definition pow_by_mul (z : complex) (n : Z) : complex :=
  Z.iter n (cmul z) (1%float, 0%float).

(** A stand-in for [std::abs(z)]: the square root of the sum of the
    squares.  The library computes a [hypot], which can differ from this
    in the last place and at infinite or NaN arguments; the stand-in
    serves only to run the loop in the examples, and the theorems hold
    for any [std_abs]. *)
Definition abs_by_sqrt (z : complex) : float :=
  PrimFloat.sqrt
    (PrimFloat.add (PrimFloat.mul (fst z) (fst z)) (PrimFloat.mul (snd z) (snd z))).

End MandelbrotDemo.

(** ** More of the queue: who is awake, and what is left to do *)

Module PCQProgress.
Import PCQ.
Section Queue.
Context {T : Type}.

Definition is_push (c : call T) : bool :=
  match c with Push _ => true | Pop => false end.

Definition is_pop_call (c : call T) : bool :=
  match c with Push _ => false | Pop => true end.

(** The thread is in, or about to enter, [push]; [pop]. *)
Definition wants_push (th : thread T) : bool :=
  match todo th with Push _ :: _ => true | _ => false end.

Definition wants_pop (th : thread T) : bool :=
  match todo th with Pop :: _ => true | _ => false end.

(** A weight summed over the threads. *)
Definition total (g : thread T → nat) (ths : list (thread T)) : nat :=
  sum_list (g <$> ths).

Definition one_if (b : bool) : nat := if b then 1 else 0.

(** Threads in [pop] that are awake, and that sleep on [cv_empty_];
    threads in [push] that are awake, and that sleep on [cv_full_]. *)
Definition awake_popper (th : thread T) : nat := one_if (negb (asleep th) && wants_pop th).
Definition asleep_popper (th : thread T) : nat := one_if (on_cv_empty th).
Definition awake_pusher (th : thread T) : nat := one_if (negb (asleep th) && wants_push th).
Definition asleep_pusher (th : thread T) : nat := one_if (on_cv_full th).

(** The calls of each kind that a thread has yet to complete. *)
Definition pushes_left (th : thread T) : nat :=
  sum_list ((fun c => one_if (is_push c)) <$> todo th).

Definition pops_left (th : thread T) : nat :=
  sum_list ((fun c => one_if (is_pop_call c)) <$> todo th).

Definition awake_one (th : thread T) : nat := one_if (negb (asleep th)).

(** A bound on the moves that the threads can still make by
    themselves: a call that completes wakes at most one thread, and a
    thread that goes to sleep is awake no more. *)
Definition calls_left (s : sys T) : nat :=
  2 * (total pushes_left (threads s) + total pops_left (threads s))
  + total awake_one (threads s).

(** The free places of the queue. *)
Definition free (c : t T) : nat := N.to_nat (max_size_ c) - length (q_ c).

(** Notifications are not lost.  While a thread sleeps in [pop], the
    queue holds no more items than there are threads awake in [pop] to
    take them; while a thread sleeps in [push], the queue has no more
    free places than there are threads awake in [push] to fill them. *)
Record steady (s : sys T) : Prop := {
  steady_size : length (q_ (chan s)) ≤ N.to_nat (max_size_ (chan s));
  steady_pop :
    total asleep_popper (threads s) = 0
    ∨ length (q_ (chan s)) ≤ total awake_popper (threads s);
  steady_push :
    total asleep_pusher (threads s) = 0
    ∨ free (chan s) ≤ total awake_pusher (threads s)
}.

(** A thread that only pushes, or only pops, as the threads of [main]. *)
Definition one_sided (cs : list (call T)) : bool :=
  forallb is_push cs || forallb is_pop_call cs.

(** As many pops are left to do as there are items queued or still to
    be pushed. *)
Definition balanced (s : sys T) : Prop :=
  length (q_ (chan s)) + total pushes_left (threads s) = total pops_left (threads s).

Definition finished (s : sys T) : Prop :=
  ∀ tid th, threads s !! tid = Some th → todo th = [].

(** Whether a move is one that a thread makes by itself. *)
Definition unprompted (m : move) : bool :=
  match m with Run _ _ => true | Spurious _ => false end.

(** The items that a run of calls pushes, in order; and the items that
    the threads have yet to push. *)
Definition pushed_by (cs : list (call T)) : list T :=
  flat_map (fun x => match x with Push item => [item] | Pop => [] end) cs.

Definition to_push (ths : list (thread T)) : list T :=
  flat_map (fun th => pushed_by (todo th)) ths.

End Queue.
End PCQProgress.

(** *** The threads of [main] *)

Module PCQMain.
Import PCQ.

Definition items_per_producer : Z := 10.
Definition total_items_to_consume : Z := 20.

(** Producer [i] pushes [i * items_per_producer + j + 1] for [j] from 0
    to [items_per_producer - 1]. *)
Definition producer (i : Z) : list (call Z) :=
  (fun j => Push (i * items_per_producer + j + 1)%Z) <$> seqZ 0 items_per_producer.

(** A consumer pops [total_items_to_consume / 2] times. *)
Definition consumer : list (call Z) :=
  replicate (Z.to_nat (total_items_to_consume / 2)) Pop.

(** [ProducerConsumerQueue<int> queue(5)], two producers, two consumers. *)
Definition programs : list (list (call Z)) :=
  [producer 0; producer 1; consumer; consumer].

Definition start : sys Z := init 5 programs.

End PCQMain.

(** ** More of the pool: runs of calls, and what the moves hand out *)

Module PoolTrace.
Import ThreadPool.
Section Pool.
Context {World : Type}.

(** [enqueue] called on each task in turn, up to the first call that
    throws. *)
Fixpoint enqueue_all (fs : list (Task World)) (p : t World) : option exn * t World :=
  match fs with
  | [] => (None, p)
  | f :: more =>
      match enqueue f p with
      | (None, p') => enqueue_all more p'
      | (Some e, p') => (Some e, p')
      end
  end.

(** The task that a move hands to a worker: the move of a worker at the
    top of its loop that finds a task in the queue. *)
Definition handed (m : move) (s : sys World) : option (Task World) :=
  if terminated s then None
  else match m with
       | Work i =>
           match workers s !! i with
           | Some Polling =>
               match take (pool s) with
               | Takes task _ => Some task
               | Waits | Exits => None
               end
           | _ => None
           end
       | Own _ | Spurious _ => None
       end.

(** The tasks handed out in the course of a schedule, in order. *)
Fixpoint handed_out (sched : list move) (s : sys World) : list (Task World) :=
  match sched with
  | [] => []
  | m :: later =>
      match handed m s with
      | Some task => task :: handed_out later (step m s)
      | None => handed_out later (step m s)
      end
  end.

(** The tasks called one after the other, each in the world the one
    before has left; [None] unless all of them return. *)
Fixpoint run_in_turn (ts : list (Task World)) (w : World) : option World :=
  match ts with
  | [] => Some w
  | task :: more =>
      match task w with
      | Returns w' => run_in_turn more w'
      | Throws _ | Diverges => None
      end
  end.

(** A worker that is in its loop and not asleep. *)
Definition active (w : worker World) : bool :=
  match w with Polling | Running _ => true | Sleeping | Exited => false end.

(** Somebody is about to look at the queue: the owner is at the
    [notify_one] of [enqueue], or some worker is active. *)
Definition has_taker (s : sys World) : Prop :=
  (∃ rest, main s = Signalling rest)
  ∨ ∃ i x, workers s !! i = Some x ∧ active x = true.

End Pool.
End PoolTrace.

(** ** The rest of the renderer: colours, pixels and the preview *)

Module Render.
Import Mandelbrot.

Definition IMAGE_WIDTH : Z := 800.
Definition IMAGE_HEIGHT : Z := 600.

Definition MIN_REAL : float := (-2)%float.
Definition MAX_REAL : float := 1%float.
Definition MIN_IMAGINARY : float := (-1.5)%float.
Definition MAX_IMAGINARY : float := 1.5%float.

(** An [int] converted to [double], by [static_cast<double>] or by the
    usual promotion of an [int] operand: every [int] is a binary64. *)
Definition double_of_int (n : Z) : float :=
  if (n <? 0)%Z
  then PrimFloat.opp (PrimFloat.of_uint63 (Uint63.of_Z (- n)))
  else PrimFloat.of_uint63 (Uint63.of_Z n).

(** [static_cast<int>] of a [double]: the fraction is dropped.  The
    conversion is defined in C++ only when the result fits an [int]; the
    values that are not numbers are sent to 0 here. *)
Definition int_of_double (d : float) : Z :=
  match FloatOps.Prim2SF d with
  | SpecFloat.S754_finite negative m e =>
      let magnitude :=
        if (0 <=? e)%Z then Z.shiftl (Z.pos m) e else Z.shiftr (Z.pos m) (- e) in
      if negative then (- magnitude)%Z else magnitude
  | SpecFloat.S754_zero _ | SpecFloat.S754_infinity _ | SpecFloat.S754_nan => 0%Z
  end.

(** [mapIterationsToColor] *)
Definition mapIterationsToColor (iterations : Z) : Z :=
  if (iterations =? MAX_ITERATIONS)%Z then 0%Z
  else
    int_of_double
      (PrimFloat.div
         (PrimFloat.mul (double_of_int 255) (double_of_int iterations))
         (double_of_int MAX_ITERATIONS)).

(** The point of the plane that [main] gives to the pixel in column [x]
    and row [y]. *)
Definition pixel_real (x : Z) : float :=
  PrimFloat.add MIN_REAL
    (PrimFloat.mul
       (PrimFloat.div (double_of_int x) (double_of_int IMAGE_WIDTH))
       (PrimFloat.sub MAX_REAL MIN_REAL)).

Definition pixel_imaginary (y : Z) : float :=
  PrimFloat.sub MAX_IMAGINARY
    (PrimFloat.mul
       (PrimFloat.div (double_of_int y) (double_of_int IMAGE_HEIGHT))
       (PrimFloat.sub MAX_IMAGINARY MIN_IMAGINARY)).

(** The character that the preview prints for a colour. *)
Definition preview_char (color : Z) : string :=
  if (color <? 50)%Z then "#" else if (color <? 150)%Z then "*" else ".".

Section Image.
Variable std_pow : complex -> Z -> complex.
Variable std_abs : complex -> float.

(** The body of the two loops of [main]: the colour stored in
    [imageData[y][x]]. *)
Definition pixel_color (x y : Z) : option Z :=
  match mandelbrotIterations std_pow std_abs (pixel_real x, pixel_imaginary y) with
  | Some iterations => Some (mapIterationsToColor iterations)
  | None => None
  end.

(** [imageData] after the loops: [IMAGE_HEIGHT] rows of [IMAGE_WIDTH]
    colours. *)
Definition imageData : list (list (option Z)) :=
  (fun y => (fun x => pixel_color x y) <$> seqZ 0 IMAGE_WIDTH) <$> seqZ 0 IMAGE_HEIGHT.

(** [image[y][x]]: nothing when an index is out of range, or when the
    entry holds no colour. *)
Definition read (image : list (list (option Z))) (x y : Z) : option Z :=
  match image !! Z.to_nat y with
  | Some row =>
      match row !! Z.to_nat x with
      | Some entry => entry
      | None => None
      end
  | None => None
  end.

(** The preview: of the first [min(10, IMAGE_HEIGHT)] rows, the
    characters printed for [imageData[y][x]] with [x] below
    [min(10, IMAGE_WIDTH)]. *)
Definition preview : list (list (option string)) :=
  (fun y => (fun x => preview_char <$> read imageData x y)
              <$> seqZ 0 (Z.min 10 IMAGE_WIDTH))
    <$> seqZ 0 (Z.min 10 IMAGE_HEIGHT).

End Image.
End Render.

(** * Properties *)

(** ** The bounded queue *)

Module PCQFacts.
Import PCQ.
Section Queue.
Context {T : Type}.
Implicit Types (c : t T) (item : T) (s : sys T) (e : event T).

(** *** The two critical sections *)

Lemma push_Some item c c' :
  push item c = Some c' ↔
  (size c < max_size_ c)%N ∧ c' = mk (q_ c ++ [item]) (max_size_ c).
Proof.
  unfold push, has_space. destruct (N.ltb_spec (size c) (max_size_ c)); split.
  - intros [= <-]. done.
  - intros [_ ->]. done.
  - done.
  - intros [? _]. lia.
Qed.

Lemma push_None item c : push item c = None ↔ (max_size_ c ≤ size c)%N.
Proof.
  unfold push, has_space. destruct (N.ltb_spec (size c) (max_size_ c)); split;
    try done; lia.
Qed.

Lemma pop_Some c item c' :
  pop c = Some (item, c') ↔ q_ c = item :: q_ c' ∧ max_size_ c' = max_size_ c.
Proof.
  unfold pop, has_item. destruct c as [q C], c' as [q' C']; simpl.
  destruct q as [|x q]; split.
  - done.
  - intros [? _]. done.
  - intros [= -> -> ->]. done.
  - intros [[= -> ->] ->]. done.
Qed.

Lemma pop_None c : pop c = None ↔ q_ c = [].
Proof. unfold pop, has_item. destruct (q_ c); done. Qed.

Lemma size_push item c c' : push item c = Some c' → size c' = (size c + 1)%N.
Proof.
  intros [_ ->]%push_Some. unfold size. simpl. rewrite length_app. simpl. lia.
Qed.

Lemma size_pop c item c' : pop c = Some (item, c') → size c = (size c' + 1)%N.
Proof. intros [Hq _]%pop_Some. unfold size. rewrite Hq. simpl. lia. Qed.

(** A push that completes leaves the queue within its bound, whatever
    the state it started from. *)
Lemma push_within item c c' :
  push item c = Some c' → (size c' ≤ max_size_ c')%N.
Proof.
  intros Hpush. pose proof (size_push _ _ _ Hpush) as Hsize.
  apply push_Some in Hpush as [Hlt ->]. simpl in *. lia.
Qed.

Lemma pop_within c item c' :
  (size c ≤ max_size_ c)%N → pop c = Some (item, c') → (size c' ≤ max_size_ c')%N.
Proof.
  intros Hle Hpop. pose proof (size_pop _ _ _ Hpop) as Hsize.
  apply pop_Some in Hpop as [_ ->]. lia.
Qed.

(** *** One thread: pushes, then pops *)

Lemma push_all_app items : ∀ c c',
  push_all items c = Some c' → c' = mk (q_ c ++ items) (max_size_ c).
Proof.
  induction items as [|item items IH]; intros c c'; simpl.
  - intros [= <-]. rewrite app_nil_r. by destruct c.
  - destruct (push item c) as [c1|] eqn:Hpush; [|done].
    intros ->%IH. apply push_Some in Hpush as [_ ->]. simpl.
    by rewrite <- app_assoc.
Qed.

Lemma push_all_fits items : ∀ c,
  (size c + N.of_nat (length items) ≤ max_size_ c)%N → is_Some (push_all items c).
Proof.
  induction items as [|item items IH]; intros c Hfits; simpl in *.
  - by eexists.
  - destruct (push item c) as [c1|] eqn:Hpush.
    + apply IH. pose proof (size_push _ _ _ Hpush).
      apply push_Some in Hpush as [_ ->]. simpl. lia.
    + apply push_None in Hpush. lia.
Qed.

Lemma pop_n_app (front : list T) : ∀ (back : list T) (C : N),
  pop_n (length front) (mk (front ++ back) C) = Some (front, mk back C).
Proof.
  induction front as [|item front IH]; intros back C; simpl; [done|].
  by rewrite IH.
Qed.

(** *** Any number of threads *)

(** The cases of a move, by what the thread that runs finds. *)
Ltac step_cases s m :=
  unfold step;
  let tid := fresh "tid" in
  let pick := fresh "pick" in
  let th := fresh "th" in
  let x := fresh "x" in
  let rest := fresh "rest" in
  destruct m as [tid pick|tid];
  [ destruct (threads s !! tid) as [th|];
    [ destruct (asleep th);
      [ | destruct (todo th) as [|[x|] rest];
          [ | destruct (push x (chan s)) as [?c|] eqn:?Hpush
            | destruct (pop (chan s)) as [[?y ?c]|] eqn:?Hpop ] ]
    | ]
  | destruct (threads s !! tid) as [th|] ].

Lemma step_Pushed m s tid item s' :
  step m s = (Some (Pushed tid item), s') → push item (chan s) = Some (chan s').
Proof. step_cases s m; intros ?; by simplify_eq/=. Qed.

Lemma step_Popped m s tid item s' :
  step m s = (Some (Popped tid item), s') → pop (chan s) = Some (item, chan s').
Proof. step_cases s m; intros ?; by simplify_eq/=. Qed.

(** A move in which no call completes leaves the queue as it is: the
    thread went to sleep, woke up, or had nothing to do. *)
Lemma step_silent m s s' : step m s = (None, s') → chan s' = chan s.
Proof. step_cases s m; intros ?; by simplify_eq/=. Qed.

Lemma run_cons m sched s :
  run (m :: sched) s =
  (match (step m s).1 with Some e => [e] | None => [] end
   ++ (run sched (step m s).2).1,
   (run sched (step m s).2).2).
Proof.
  simpl. destruct (step m s) as [[e|] s']; simpl; by destruct (run sched s').
Qed.

Lemma step_within m s :
  (size (chan s) ≤ max_size_ (chan s))%N →
  (size (chan (step m s).2) ≤ max_size_ (chan (step m s).2))%N
  ∧ max_size_ (chan (step m s).2) = max_size_ (chan s).
Proof.
  intros Hle. destruct (step m s) as [[[tid item|tid item]|] s'] eqn:Hstep; simpl.
  - apply step_Pushed in Hstep. split; [by eapply push_within|].
    by apply push_Some in Hstep as [_ ->].
  - apply step_Popped in Hstep. split; [by eapply pop_within|].
    by apply pop_Some in Hstep as [_ ->].
  - apply step_silent in Hstep. by rewrite Hstep.
Qed.

Lemma run_within sched : ∀ s,
  (size (chan s) ≤ max_size_ (chan s))%N →
  (size (chan (run sched s).2) ≤ max_size_ (chan (run sched s).2))%N
  ∧ max_size_ (chan (run sched s).2) = max_size_ (chan s).
Proof.
  induction sched as [|m sched IH]; intros s Hle; [done|].
  rewrite run_cons. simpl.
  destruct (step_within m s Hle) as [Hle' Hmax].
  destruct (IH _ Hle') as [? ?]. split; [done|congruence].
Qed.

(** From a full queue the first call to complete is a pop. *)
Lemma full_first_pop sched : ∀ s e es,
  size (chan s) = max_size_ (chan s) → (run sched s).1 = e :: es → is_pop e = true.
Proof.
  induction sched as [|m sched IH]; intros s e es Hfull; [done|].
  rewrite run_cons. simpl.
  destruct (step m s) as [[e'|] s'] eqn:Hstep; simpl.
  - intros [= -> _]. destruct e as [tid item|]; [|done].
    apply step_Pushed, push_Some in Hstep as [Hlt _]. lia.
  - apply step_silent in Hstep. apply IH. by rewrite Hstep.
Qed.

(** The items pushed so far are the items popped so far followed by the
    items still queued: the queue hands items out in the order it took
    them in, however the threads are interleaved. *)
Lemma run_fifo sched : ∀ s,
  q_ (chan s) ++ pushed_items (run sched s).1
  = popped_items (run sched s).1 ++ q_ (chan (run sched s).2).
Proof.
  induction sched as [|m sched IH]; intros s.
  - simpl. by rewrite app_nil_r.
  - rewrite run_cons. simpl.
    destruct (step m s) as [[[tid item|tid item]|] s'] eqn:Hstep; simpl.
    + apply step_Pushed, push_Some in Hstep as [_ Hc].
      rewrite <- IH, Hc. simpl. by rewrite <- app_assoc.
    + apply step_Popped, pop_Some in Hstep as [Hq _].
      rewrite <- IH, Hq. done.
    + apply step_silent in Hstep. by rewrite <- IH, Hstep.
Qed.

(** A queue of capacity 0 never changes: no push gets in, and there is
    nothing to pop. *)
Lemma run_zero sched : ∀ s,
  max_size_ (chan s) = 0%N → q_ (chan s) = [] →
  (run sched s).1 = [] ∧ chan (run sched s).2 = chan s.
Proof.
  induction sched as [|m sched IH]; intros s Hmax Hq; [done|].
  rewrite run_cons. simpl.
  destruct (step m s) as [[[tid item|tid item]|] s'] eqn:Hstep; simpl.
  - apply step_Pushed, push_Some in Hstep as [Hlt _]. lia.
  - apply step_Popped, pop_Some in Hstep as [Hq' _]. congruence.
  - apply step_silent in Hstep.
    destruct (IH s') as [? ?]; [congruence..|]. split; [done|congruence].
Qed.

Lemma pushed_items_pops (es : list (event T)) :
  (∀ e, e ∈ es → is_pop e = true) →
  pushed_items es = [] ∧ length (popped_items es) = length es.
Proof.
  induction es as [|[tid item|tid item] es IH]; intros Hall; [done|..].
  - specialize (Hall (Pushed tid item)). discriminate Hall. by left.
  - destruct IH as [IH1 IH2]; [intros e He; apply Hall; by right|].
    unfold pushed_items, popped_items in *. simpl. auto.
Qed.

Lemma popped_items_pushes (es : list (event T)) :
  (∀ e, e ∈ es → is_pop e = false) →
  popped_items es = [] ∧ length (pushed_items es) = length es.
Proof.
  induction es as [|[tid item|tid item] es IH]; intros Hall; [done|..].
  - destruct IH as [IH1 IH2]; [intros e He; apply Hall; by right|].
    unfold pushed_items, popped_items in *. simpl. auto.
  - specialize (Hall (Popped tid item)). discriminate Hall. by left.
Qed.

(** However many threads push and pop, and however they are scheduled:
    the items popped so far are a prefix of the items pushed so far, and
    what remains of those is what the queue holds. *)
Theorem fifo_any_interleaving (C : N) (programs : list (list (call T))) (sched : list move) :
  pushed_items (run sched (init C programs)).1
  = popped_items (run sched (init C programs)).1
    ++ q_ (chan (run sched (init C programs)).2).
Proof. by rewrite <- run_fifo. Qed.

(** The same for a history in which all pushes come before all pops. *)
Theorem fifo_threads (C : N) (programs : list (list (call T))) (sched : list move)
    (pushes pops : list (event T)) :
  (run sched (init C programs)).1 = pushes ++ pops →
  (∀ e, e ∈ pushes → is_pop e = false) →
  (∀ e, e ∈ pops → is_pop e = true) →
  length pops = length pushes →
  popped_items pops = pushed_items pushes.
Proof.
  intros Hes Hpushes Hpops Hlen.
  pose proof (fifo_any_interleaving C programs sched) as Hfifo.
  rewrite Hes in Hfifo. unfold pushed_items, popped_items in Hfifo.
  rewrite !flat_map_app in Hfifo.
  destruct (pushed_items_pops _ Hpops) as [Hnil Hlen1].
  destruct (popped_items_pushes _ Hpushes) as [Hnil' Hlen2].
  unfold pushed_items, popped_items in *.
  rewrite Hnil, Hnil', app_nil_r in Hfifo. simpl in Hfifo.
  assert (q_ (chan (run sched (init C programs)).2) = []) as Hempty.
  { apply nil_length_inv. apply (f_equal length) in Hfifo.
    rewrite length_app in Hfifo. lia. }
  rewrite Hempty, app_nil_r in Hfifo. done.
Qed.

(** C1. For every capacity [C] (so for every [C > 0]), whatever the
    threads do and however they are scheduled, the queue never holds more
    than [C] items.  When it holds exactly [C], [push] waits: a thread that
    calls it goes to sleep and the queue stays as it is; and no push
    completes from then on before some pop has: in every continuation, a
    completed push has a completed pop before it. *)
Theorem capacity_invariant (C : N) (programs : list (list (call T))) (sched : list move) :
  let s := (run sched (init C programs)).2 in
  max_size_ (chan s) = C
  ∧ (size (chan s) ≤ C)%N
  ∧ (size (chan s) = C →
     (∀ item, push item (chan s) = None)
     ∧ (∀ tid pick th item rest,
          threads s !! tid = Some th → asleep th = false →
          todo th = Push item :: rest →
          step (Run tid pick) s
          = (None, mkSys (chan s) (<[tid := mkThread (Push item :: rest) true]> (threads s))))
     ∧ (∀ later pre tid item post,
          (run later s).1 = pre ++ Pushed tid item :: post →
          ∃ e, e ∈ pre ∧ is_pop e = true)).
Proof.
  intros s.
  destruct (run_within sched (init C programs)) as [Hle Hmax].
  { unfold size. simpl. lia. }
  fold s in Hle, Hmax. simpl in Hmax. rewrite Hmax in Hle.
  split; [done|]. split; [done|]. intros Hfull.
  assert (∀ item, push item (chan s) = None) as Hwaits.
  { intros item. apply push_None. lia. }
  split; [done|]. split.
  - intros tid pick th item rest Hth Hawake Htodo.
    unfold step. by rewrite Hth, Hawake, Htodo, Hwaits.
  - intros later pre tid item post Hes.
    assert (size (chan s) = max_size_ (chan s)) as Hfull' by congruence.
    destruct pre as [|e pre].
    + by apply (full_first_pop _ _ _ _ Hfull') in Hes.
    + exists e. split; [by left|]. by apply (full_first_pop _ _ _ _ Hfull') in Hes.
Qed.

(** C2. When [n] pushes of [P1..Pn] on a new queue have all completed
    with no pop in between, the next [n] pops return [P1..Pn] in that
    order, and leave the queue empty. *)
Theorem fifo_pushes_then_pops (C : N) (items : list T) (c : t T) :
  push_all items (make C) = Some c →
  pop_n (length items) c = Some (items, make C).
Proof.
  intros ->%push_all_app. simpl.
  rewrite <- (app_nil_r items) at 2. apply pop_n_app.
Qed.

(** C6, amended.  With [max_size_ = 0] the predicate [q_.size() <
    max_size_] is false at every length, so [push] waits whatever the
    queue holds; a queue constructed with capacity 0 stays empty and no
    push on it ever completes. *)
Theorem zero_capacity_admits_nothing :
  (∀ (q : list T) item, push item (mk q 0) = None)
  ∧ (∀ (programs : list (list (call T))) sched,
       pushed_items (run sched (init 0 programs)).1 = []
       ∧ q_ (chan (run sched (init 0 programs)).2) = []).
Proof.
  split.
  - intros q item. apply push_None. simpl. lia.
  - intros programs sched.
    destruct (run_zero sched (init 0 programs)) as [-> ->]; done.
Qed.

End Queue.

Import PCQDemo.

Lemma capacity_invariant_witness :
  let s := (run [Run 0 1; Run 0 1] start).2 in
  q_ (chan s) = [1; 2]%Z
  ∧ push 3%Z (chan s) = None
  ∧ step (Run 0 1) s
    = (None, mkSys (mk [1; 2]%Z 2) [mkThread [Push 3%Z] true; mkThread consumer false])
  ∧ (run [Run 0 1; Run 1 0; Run 0 1] s).1 = [Popped 1 1%Z; Pushed 0 3%Z]
  ∧ ∃ e, e ∈ [Popped 1 1%Z] ∧ is_pop e = true.
Proof.
  destruct (capacity_invariant 2 [producer; consumer] [Run 0 1; Run 0 1])
    as (_ & _ & Hfull).
  destruct Hfull as (Hwaits & Hsleeps & Hpop); [reflexivity|].
  split; [reflexivity|]. split; [apply Hwaits|].
  split; [by apply (Hsleeps 0 1 (mkThread [Push 3%Z] false) 3%Z [])|].
  split; [reflexivity|].
  apply (Hpop [Run 0 1; Run 1 0; Run 0 1] [Popped 1 1%Z] 0 3%Z []). reflexivity.
Defined.

Lemma fifo_pushes_then_pops_witness :
  push_all [1; 2; 3]%Z (make 5) = Some (mk [1; 2; 3]%Z 5)
  ∧ pop_n 3 (mk [1; 2; 3]%Z 5) = Some ([1; 2; 3]%Z, make 5).
Proof.
  split; [reflexivity|].
  apply (fifo_pushes_then_pops 5 [1; 2; 3]%Z). reflexivity.
Defined.

(** C6 as stated fails: on [ProducerConsumerQueue<int> queue(0)] the
    first [push] already waits, and nothing is stored. *)
Lemma zero_capacity_push_waits :
  push 1%Z (make 0) = None
  ∧ ¬ (∀ (c : t Z) (item : Z), max_size_ c = 0%N → is_Some (push item c)).
Proof.
  split; [reflexivity|].
  intros Hstores. destruct (Hstores (make 0) 1%Z) as [c Hc]; [reflexivity|].
  discriminate Hc.
Qed.

(** C9 as stated fails.  After [push(1)], [push(2)], the [pop] that
    returns 1 and the [push(3)] it lets through, the queue holds 2 and 3:
    the first of the pops that follow returns 2, not 1, two of them empty
    the queue, and a third one waits.  A consumer thread that pops three
    more times after the pop that returned 1 goes to sleep in the last of
    them, and stays asleep however often it is run. *)
Lemma third_pop_after_unblocking_waits :
  (push 1%Z (make 2) = Some (mk [1]%Z 2)
   ∧ push 2%Z (mk [1]%Z 2) = Some (mk [1; 2]%Z 2)
   ∧ push 3%Z (mk [1; 2]%Z 2) = None
   ∧ pop (mk [1; 2]%Z 2) = Some (1%Z, mk [2]%Z 2)
   ∧ push 3%Z (mk [2]%Z 2) = Some (mk [2; 3]%Z 2))
  ∧ pop (mk [2; 3]%Z 2) = Some (2%Z, mk [3]%Z 2)
  ∧ pop_n 2 (mk [2; 3]%Z 2) = Some ([2; 3]%Z, make 2)
  ∧ pop_n 3 (mk [2; 3]%Z 2) = None
  ∧ (run (blocked_push_schedule ++ [Run 1 0; Run 1 0]) start_four_pops).1
    = [Pushed 0 1%Z; Pushed 0 2%Z; Popped 1 1%Z; Pushed 0 3%Z; Popped 1 2%Z; Popped 1 3%Z]
  ∧ threads (run (blocked_push_schedule ++ [Run 1 0; Run 1 0]) start_four_pops).2 !! 1
    = Some (mkThread [Pop] true)
  ∧ ¬ (∃ c1 c2 c3 c4 c5 : t Z,
         push 1%Z (make 2) = Some c1 ∧ push 2%Z c1 = Some c2
         ∧ push 3%Z c2 = None
         ∧ pop c2 = Some (1%Z, c3)
         ∧ push 3%Z c3 = Some c4
         ∧ pop_n 3 c4 = Some ([1; 2; 3]%Z, c5)).
Proof.
  split; [by repeat split|]. do 5 (split; [reflexivity|]).
  intros (c1 & c2 & c3 & c4 & c5 & H1 & H2 & _ & H4 & H5 & H6).
  vm_compute in H1. injection H1 as <-.
  vm_compute in H2. injection H2 as <-.
  vm_compute in H4. injection H4 as <-.
  vm_compute in H5. injection H5 as <-.
  vm_compute in H6. discriminate H6.
Qed.

(** C9, amended.  On a queue of capacity 2: [push(1)] and [push(2)]
    complete at once; [push(3)] then waits; a [pop] returns 1, after which
    the waiting [push(3)] completes and the queue holds 2 and 3; the two
    pops that follow return 2 and 3 and leave the queue empty, so that the
    three pops made in all return 1, 2, 3 in that order; one more [pop]
    would wait.  With a producer and a consumer thread: after its first
    two pushes the producer goes to sleep in its third and stays asleep
    when run; the consumer's pop returns 1 and its [notify_one] wakes the
    producer, whose push then completes; the calls complete in the order
    shown. *)
Example scenario_capacity_two :
  (∃ c1 c2 c3 c4 c5 c6 : t Z,
     push 1%Z (make 2) = Some c1 ∧ push 2%Z c1 = Some c2
     ∧ push 3%Z c2 = None
     ∧ pop c2 = Some (1%Z, c3)
     ∧ push 3%Z c3 = Some c4
     ∧ q_ c4 = [2; 3]%Z
     ∧ pop c4 = Some (2%Z, c5) ∧ pop c5 = Some (3%Z, c6)
     ∧ pop_n 2 c4 = Some ([2; 3]%Z, c6)
     ∧ q_ c6 = []
     ∧ pop c6 = None)
  ∧ (run [Run 0 1; Run 0 1] start).1 = [Pushed 0 1%Z; Pushed 0 2%Z]
  ∧ threads (run [Run 0 1; Run 0 1; Run 0 1; Run 0 1] start).2 !! 0
    = Some (mkThread [Push 3%Z] true)
  ∧ (run [Run 0 1; Run 0 1; Run 0 1; Run 0 1] start).1 = [Pushed 0 1%Z; Pushed 0 2%Z]
  ∧ threads (run [Run 0 1; Run 0 1; Run 0 1; Run 0 1; Run 1 0] start).2 !! 0
    = Some (mkThread [Push 3%Z] false)
  ∧ (run blocked_push_schedule start).1
    = [Pushed 0 1%Z; Pushed 0 2%Z; Popped 1 1%Z; Pushed 0 3%Z; Popped 1 2%Z; Popped 1 3%Z]
  ∧ popped_items (run blocked_push_schedule start).1 = [1; 2; 3]%Z.
Proof.
  split; [|by repeat split].
  exists (mk [1]%Z 2), (mk [1; 2]%Z 2), (mk [2]%Z 2), (mk [2; 3]%Z 2),
    (mk [3]%Z 2), (mk [] 2).
  by repeat split.
Qed.

End PCQFacts.

(** ** The thread pool *)

Module ThreadPoolFacts.
Import ThreadPool.
Section Pool.
Context {World : Type}.
Implicit Types (p : t World) (f task : Task World) (s : sys World)
  (ws : list (worker World)) (m : move).

(** *** The locked blocks *)

Lemma take_Exits p : take p = Exits ↔ stop p = true ∧ tasks p = [].
Proof.
  unfold take, wake, empty. destruct p as [[|task rest] []]; simpl;
    split; try done; intros [? ?]; done.
Qed.

Lemma take_Waits p : take p = Waits ↔ stop p = false ∧ tasks p = [].
Proof.
  unfold take, wake, empty. destruct p as [[|task rest] []]; simpl;
    split; try done; intros [? ?]; done.
Qed.

Lemma take_Takes p task p' :
  take p = Takes task p' ↔ tasks p = task :: tasks p' ∧ stop p' = stop p.
Proof.
  unfold take, wake, empty.
  destruct p as [[|x rest] []], p' as [rest' b']; simpl;
    (split; [intros [= -> -> ->] || intros [=] | intros [[= -> ->] ->] || intros [[=] _]]);
    done.
Qed.

(** The branch of [take] that stands for [front()] on an empty queue is
    dead: a worker that is let through and does not exit finds a task. *)
Lemma take_front_defined p :
  wake p = true → stop p && empty p = false → ∃ task p', take p = Takes task p'.
Proof.
  unfold take, wake, empty. destruct p as [[|x rest] []]; simpl; try done; eauto.
Qed.

Lemma enqueue_stopped f p :
  stop p = true →
  enqueue f p = (Some (runtime_error "enqueue on stopped ThreadPool"), p).
Proof. unfold enqueue. by intros ->. Qed.

Lemma enqueue_open f p :
  stop p = false → enqueue f p = (None, mk (tasks p ++ [f]) false).
Proof. unfold enqueue. by intros ->. Qed.

Lemma take_n_app (front : list (Task World)) : ∀ (back : list (Task World)) (b : bool),
  take_n (length front) (mk (front ++ back) b) = Some (front, mk back b).
Proof.
  induction front as [|task front IH]; intros back b; [done|].
  cbn [length take_n app].
  assert (take (mk (task :: front ++ back) b) = Takes task (mk (front ++ back) b)) as ->.
  { by apply take_Takes. }
  by rewrite IH.
Qed.

(** *** Notifications *)

Lemma notified_refl ws : Forall2 notified ws ws.
Proof. apply Forall_Forall2_diag, Forall_forall. intros w _. by left. Qed.

Lemma wake_first_notified ws : Forall2 notified ws (wake_first ws).
Proof.
  induction ws as [|w ws IH]; [constructor|].
  destruct w; simpl; constructor; try done; try (by left).
  - by right.
  - apply notified_refl.
Qed.

Lemma notify_one_notified pick ws : Forall2 notified ws (notify_one pick ws).
Proof.
  unfold notify_one.
  destruct (ws !! pick) as [[]|] eqn:Hpick; try apply wake_first_notified.
  apply Forall2_same_length_lookup_2; [by rewrite length_insert|].
  intros i x y Hx Hy. destruct (decide (i = pick)) as [->|].
  - rewrite list_lookup_insert_eq in Hy by (by eapply lookup_lt_Some).
    right. by simplify_eq.
  - rewrite list_lookup_insert_ne in Hy by done. left. congruence.
Qed.

Lemma notify_all_notified ws : Forall2 notified ws (notify_all ws).
Proof.
  unfold notify_all. apply Forall2_fmap_r, Forall_Forall2_diag, Forall_forall.
  intros w _. by right.
Qed.

Lemma notify_all_awake ws i : notify_all ws !! i ≠ Some Sleeping.
Proof.
  unfold notify_all. rewrite list_lookup_fmap.
  by destruct (ws !! i) as [[]|].
Qed.

Lemma notified_in_flight ws ws' : Forall2 notified ws ws' → in_flight ws' = in_flight ws.
Proof.
  unfold in_flight. induction 1 as [|w w' ws ws' [->| ->] _ IH]; simpl; [done|..].
  - by rewrite IH.
  - rewrite IH. by destruct w.
Qed.

Lemma notified_Exited ws ws' i :
  Forall2 notified ws ws' → ws' !! i = Some Exited → ws !! i = Some Exited.
Proof.
  intros Hn Hi. destruct (Forall2_lookup_r _ _ _ _ _ Hn Hi) as (w & Hw & [Heq|Heq]).
  - congruence.
  - rewrite Hw. by destruct w.
Qed.

Lemma wake_first_cost ws :
  sum_list (worker_cost <$> wake_first ws) ≤ sum_list (worker_cost <$> ws) + 1.
Proof.
  induction ws as [|w ws IH]; [simpl; lia|].
  destruct w; cbn [wake_first]; rewrite !fmap_cons; cbn [sum_list_with worker_cost];
    unfold id in *; lia.
Qed.

Lemma cost_insert ws i (w w' : worker World) :
  ws !! i = Some w →
  sum_list (worker_cost <$> <[i := w']> ws) + worker_cost w
  = sum_list (worker_cost <$> ws) + worker_cost w'.
Proof.
  revert i. induction ws as [|w0 ws IH]; intros [|i] Hi; simplify_eq/=.
  - lia.
  - specialize (IH _ Hi). lia.
Qed.

Lemma notify_one_cost pick ws :
  sum_list (worker_cost <$> notify_one pick ws) ≤ sum_list (worker_cost <$> ws) + 1.
Proof.
  unfold notify_one.
  destruct (ws !! pick) as [[]|] eqn:Hpick; try apply wake_first_cost.
  pose proof (cost_insert _ _ _ Polling Hpick) as Hcost. simpl in Hcost. lia.
Qed.

Lemma notify_all_cost ws :
  sum_list (worker_cost <$> notify_all ws) ≤ sum_list (worker_cost <$> ws) + length ws.
Proof.
  unfold notify_all. induction ws as [|w ws IH]; [simpl; lia|].
  destruct w; rewrite !fmap_cons; cbn [sum_list_with worker_cost awaken length];
    unfold id in *; lia.
Qed.

(** *** Moves of the threads *)

Lemma run_app (sched more : list move) s :
  run (sched ++ more) s = run more (run sched s).
Proof. apply foldl_app. Qed.

Lemma step_terminated m s : terminated s = true → step m s = s.
Proof. unfold step. by intros ->. Qed.

Lemma run_terminated (sched : list move) : ∀ s, terminated s = true → run sched s = s.
Proof.
  induction sched as [|m sched IH]; intros s Hterm; [done|].
  simpl. rewrite step_terminated by done. by apply IH.
Qed.

Lemma owner_step_stop pick s :
  stop (pool s) = true → stop (pool (owner_step pick s)) = true.
Proof.
  intros Hstop. unfold owner_step.
  destruct (main s) as [[|f rest]|rest| |k|]; simpl; try done.
  - rewrite enqueue_stopped by done. done.
  - destruct (workers s !! k) as [[]|]; done.
Qed.

Lemma worker_step_stop i s : stop (pool s) = true → stop (pool (worker_step i s)) = true.
Proof.
  intros Hstop. unfold worker_step.
  destruct (workers s !! i) as [[| |task|]|]; simpl; try done.
  - destruct (take (pool s)) as [| |task p'] eqn:Htake; simpl; try done.
    apply take_Takes in Htake as [_ ->]. done.
  - destruct (task (world s)); done.
Qed.

Lemma spurious_wakeup_stop i s :
  stop (pool s) = true → stop (pool (spurious_wakeup i s)) = true.
Proof.
  intros Hstop. unfold spurious_wakeup. by destruct (workers s !! i) as [[]|].
Qed.

Lemma step_stop m s : stop (pool s) = true → stop (pool (step m s)) = true.
Proof.
  intros Hstop. unfold step. destruct (terminated s); [done|].
  destruct m; [by apply owner_step_stop|by apply worker_step_stop
              |by apply spurious_wakeup_stop].
Qed.

Lemma run_stop (sched : list move) : ∀ s,
  stop (pool s) = true → stop (pool (run sched s)) = true.
Proof.
  induction sched as [|m sched IH]; intros s Hstop; [done|].
  simpl. by apply IH, step_stop.
Qed.

(** *** Where the tasks are *)

Lemma in_flight_insert ws i (w w' : worker World) :
  ws !! i = Some w →
  in_flight (<[i := w']> ws) ++ flight w ≡ₚ in_flight ws ++ flight w'.
Proof.
  revert i. induction ws as [|w0 ws IH]; intros [|i] Hi; simplify_eq/=.
  - unfold in_flight. simpl. solve_Permutation.
  - unfold in_flight in *. simpl. rewrite <- !(assoc_L (++)). by rewrite IH.
Qed.

Lemma in_flight_idle ws :
  (∀ i w, ws !! i = Some w → flight w = []) → in_flight ws = [].
Proof.
  induction ws as [|w0 ws IH]; intros Hall; [done|].
  unfold in_flight in *. simpl. rewrite IH.
  - by rewrite (Hall 0 w0).
  - intros i w Hi. by apply (Hall (S i)).
Qed.

Lemma in_flight_Running ws i task :
  ws !! i = Some (Running task) → task ∈ in_flight ws.
Proof.
  revert i. induction ws as [|w0 ws IH]; intros [|i] Hi; simplify_eq/=.
  - unfold in_flight. simpl. by left.
  - unfold in_flight. simpl. apply elem_of_app. right. by eapply IH.
Qed.

Lemma joining_stopping (o : owner World) : joining o = true → stopping o = true.
Proof. by destruct o. Qed.

(** *** The invariant *)

Lemma consistent_init (num_threads : nat) (todo : list (Task World)) (w : World) :
  consistent num_threads todo (init num_threads todo w).
Proof.
  split; simpl; try done.
  - apply length_replicate.
  - rewrite in_flight_idle; [done|].
    by intros i x [-> _]%lookup_replicate.
  - by intros i [? _]%lookup_replicate.
Qed.

(** Worker [i] leaves the state [w], which is not [Exited], for a state
    [w'] that is not [Sleeping]; the queue and the owner stay as they
    are, and the tasks stay where they are. *)
Lemma consistent_set_worker (num_threads : nat) (todo : list (Task World)) s i w w' :
  consistent num_threads todo s →
  workers s !! i = Some w →
  w ≠ Exited →
  w' ≠ Sleeping ∨ joining (main s) = false →
  (w' = Exited → stop (pool s) = true ∧ tasks (pool s) = []) →
  flight w' = flight w →
  consistent num_threads todo (set_worker i w' s).
Proof.
  intros [Hlen Htasks Hstop Hexited Hawake Hjoined Hdestroyed] Hi Hw Hw' Hexit Hfl.
  pose proof (in_flight_insert _ _ _ w' Hi) as Hperm. rewrite Hfl in Hperm.
  apply (inj (.++ flight w)) in Hperm.
  split; simpl.
  - by rewrite length_insert.
  - by rewrite Hperm.
  - done.
  - intros j Hj. destruct (decide (j = i)) as [->|].
    + rewrite list_lookup_insert_eq in Hj by (by eapply lookup_lt_Some).
      apply Hexit. congruence.
    + rewrite list_lookup_insert_ne in Hj by done. by apply (Hexited j).
  - intros j Hjoin Hj. destruct (decide (j = i)) as [->|].
    + rewrite list_lookup_insert_eq in Hj by (by eapply lookup_lt_Some).
      destruct Hw'; congruence.
    + rewrite list_lookup_insert_ne in Hj by done. by apply (Hawake j).
  - intros k j Hk Hlt. destruct (decide (j = i)) as [->|].
    + specialize (Hjoined k i Hk Hlt). congruence.
    + rewrite list_lookup_insert_ne by done. by eapply Hjoined.
  - intros j x Hd _. specialize (Hdestroyed i _ Hd Hi). done.
Qed.

Lemma consistent_owner_step (num_threads : nat) (todo : list (Task World)) pick s :
  consistent num_threads todo s → consistent num_threads todo (owner_step pick s).
Proof.
  intros Hc. pose proof Hc as [Hlen Htasks Hstop Hexited Hawake Hjoined Hdestroyed].
  unfold owner_step.
  destruct (main s) as [[|f rest]|rest| |k|] eqn:Hmain; simpl in *.
  - split; simpl; try done.
    intros i Hi. destruct (Hexited i Hi). congruence.
  - rewrite enqueue_open by done. split; simpl; try done.
    + rewrite Htasks. solve_Permutation.
    + intros i Hi. destruct (Hexited i Hi). congruence.
  - pose proof (notify_one_notified pick (workers s)) as Hn.
    split; simpl; try done.
    + by rewrite <- (Forall2_length _ _ _ Hn).
    + by rewrite (notified_in_flight _ _ Hn).
    + intros i Hi. apply (Hexited i). by eapply notified_Exited.
  - pose proof (notify_all_notified (workers s)) as Hn.
    split; simpl; try done.
    + by rewrite <- (Forall2_length _ _ _ Hn).
    + by rewrite (notified_in_flight _ _ Hn).
    + intros i Hi. apply (Hexited i). by eapply notified_Exited.
    + intros i _. apply notify_all_awake.
    + intros k i [= <-] Hlt. lia.
  - destruct (workers s !! k) as [[| |task|]|] eqn:Hk; try done.
    + split; simpl; try done.
      intros k' i [= <-] Hlt. destruct (decide (i = k)) as [->|]; [done|].
      apply (Hjoined k); [done|lia].
    + split; simpl; try done.
      intros i w _ Hi. apply lookup_ge_None in Hk.
      apply lookup_lt_Some in Hi as Hlt.
      assert (workers s !! i = Some Exited) as Hexit by (apply (Hjoined k); [done|lia]).
      congruence.
  - done.
Qed.

Lemma consistent_worker_step (num_threads : nat) (todo : list (Task World)) i s :
  consistent num_threads todo s → consistent num_threads todo (worker_step i s).
Proof.
  intros Hc. unfold worker_step.
  destruct (workers s !! i) as [[| |task|]|] eqn:Hi; try done.
  - destruct (take (pool s)) as [| |task p'] eqn:Htake.
    + apply take_Waits in Htake as [Hopen _].
      apply (consistent_set_worker _ _ _ _ Polling); try done.
      right. pose proof (cons_stop _ _ _ Hc) as Hstop.
      destruct (joining (main s)) eqn:Hj; [|done].
      apply joining_stopping in Hj. congruence.
    + apply take_Exits in Htake.
      apply (consistent_set_worker _ _ _ _ Polling); try done. by left.
    + apply take_Takes in Htake as [Ht Hs].
      pose proof Hc as [Hlen Htasks Hstop Hexited Hawake Hjoined Hdestroyed].
      pose proof (in_flight_insert _ _ _ (Running task) Hi) as Hfl.
      simpl in Hfl. rewrite app_nil_r in Hfl.
      split; simpl.
      * by rewrite length_insert.
      * rewrite Hfl, Htasks, Ht. solve_Permutation.
      * congruence.
      * intros j Hj. destruct (decide (j = i)) as [->|].
        -- rewrite list_lookup_insert_eq in Hj by (by eapply lookup_lt_Some). done.
        -- rewrite list_lookup_insert_ne in Hj by done.
           destruct (Hexited j Hj) as [_ Hnil]. congruence.
      * intros j Hjoin Hj. destruct (decide (j = i)) as [->|].
        -- rewrite list_lookup_insert_eq in Hj by (by eapply lookup_lt_Some). done.
        -- rewrite list_lookup_insert_ne in Hj by done. by apply (Hawake j).
      * intros k j Hk Hlt. destruct (decide (j = i)) as [->|].
        -- specialize (Hjoined k i Hk Hlt). congruence.
        -- rewrite list_lookup_insert_ne by done. by eapply Hjoined.
      * intros j w Hd _. by specialize (Hdestroyed i _ Hd Hi).
  - destruct (task (world s)) as [w|w|] eqn:Hrun; [..|done].
    + pose proof Hc as [Hlen Htasks Hstop Hexited Hawake Hjoined Hdestroyed].
      pose proof (in_flight_insert _ _ _ Polling Hi) as Hfl.
      simpl in Hfl. rewrite app_nil_r in Hfl.
      split; simpl; try done.
      * by rewrite length_insert.
      * rewrite Htasks, <- Hfl. solve_Permutation.
      * intros j Hj. destruct (decide (j = i)) as [->|].
        -- rewrite list_lookup_insert_eq in Hj by (by eapply lookup_lt_Some). done.
        -- rewrite list_lookup_insert_ne in Hj by done. by apply (Hexited j).
      * intros j Hjoin Hj. destruct (decide (j = i)) as [->|].
        -- rewrite list_lookup_insert_eq in Hj by (by eapply lookup_lt_Some). done.
        -- rewrite list_lookup_insert_ne in Hj by done. by apply (Hawake j).
      * intros k j Hk Hlt. destruct (decide (j = i)) as [->|].
        -- specialize (Hjoined k i Hk Hlt). congruence.
        -- rewrite list_lookup_insert_ne by done. by eapply Hjoined.
      * intros j x Hd _. by specialize (Hdestroyed i _ Hd Hi).
    + destruct Hc. by split.
Qed.

Lemma consistent_spurious_wakeup (num_threads : nat) (todo : list (Task World)) i s :
  consistent num_threads todo s → consistent num_threads todo (spurious_wakeup i s).
Proof.
  intros Hc. unfold spurious_wakeup.
  destruct (workers s !! i) as [[| |task|]|] eqn:Hi; try done.
  apply (consistent_set_worker _ _ _ _ Sleeping); try done. by left.
Qed.

Lemma consistent_step (num_threads : nat) (todo : list (Task World)) m s :
  consistent num_threads todo s → consistent num_threads todo (step m s).
Proof.
  intros Hc. unfold step. destruct (terminated s); [done|].
  destruct m; [by apply consistent_owner_step|by apply consistent_worker_step
              |by apply consistent_spurious_wakeup].
Qed.

Lemma consistent_run (num_threads : nat) (todo : list (Task World)) (sched : list move) :
  ∀ s, consistent num_threads todo s → consistent num_threads todo (run sched s).
Proof.
  induction sched as [|m sched IH]; intros s Hc; [done|].
  simpl. by apply IH, consistent_step.
Qed.

(** Once every worker has exited, every task has been run, once. *)
Lemma consistent_all_exited (num_threads : nat) (todo : list (Task World)) s :
  0 < num_threads →
  consistent num_threads todo s →
  (∀ i, i < num_threads → workers s !! i = Some Exited) →
  stop (pool s) = true ∧ tasks (pool s) = [] ∧ executed s ≡ₚ todo.
Proof.
  intros Hpos [Hlen Htasks Hstop Hexited Hawake Hjoined Hdestroyed] Hall.
  destruct (Hexited 0 (Hall 0 Hpos)) as [Hs Ht].
  split; [done|]. split; [done|].
  rewrite Htasks, Ht, in_flight_idle.
  - destruct (main s); simpl in *; try congruence; by rewrite app_nil_r.
  - intros i w Hi. apply lookup_lt_Some in Hi as Hlt.
    rewrite Hall in Hi by lia. by simplify_eq.
Qed.

(** *** Moves that are left *)

Lemma owner_moves pick s :
  stop (pool s) = stopping (main s) →
  (∀ k, main s = Joining k → workers s !! k = None ∨ workers s !! k = Some Exited) →
  main s ≠ Destroyed →
  moves_left (owner_step pick s) < moves_left s.
Proof.
  intros Hstop Hjoin Hmain. unfold owner_step, moves_left.
  destruct (main s) as [[|f rest]|rest| |k|] eqn:Hm; simpl in *; [..|done].
  - lia.
  - rewrite enqueue_open by done. simpl. rewrite length_app. simpl. lia.
  - pose proof (notify_one_cost pick (workers s)).
    rewrite <- (Forall2_length _ _ _ (notify_one_notified pick (workers s))). lia.
  - pose proof (notify_all_cost (workers s)).
    rewrite <- (Forall2_length _ _ _ (notify_all_notified (workers s))). lia.
  - destruct (Hjoin k eq_refl) as [Hk|Hk]; rewrite Hk; simpl; [lia|].
    apply lookup_lt_Some in Hk. lia.
Qed.

(** A worker at the top of its loop always moves: it takes a task,
    exits, or goes to sleep. *)
Lemma worker_polls i s :
  workers s !! i = Some Polling →
  moves_left (worker_step i s) < moves_left s
  ∧ terminated (worker_step i s) = terminated s.
Proof.
  intros Hi. unfold worker_step, moves_left. rewrite Hi.
  destruct (take (pool s)) as [| |task p'] eqn:Ht; simpl;
    rewrite length_insert.
  - pose proof (cost_insert _ _ _ Sleeping Hi) as Hcost. simpl in Hcost.
    split; [lia|done].
  - pose proof (cost_insert _ _ _ Exited Hi) as Hcost. simpl in Hcost.
    split; [lia|done].
  - pose proof (cost_insert _ _ _ (Running task) Hi) as Hcost. simpl in Hcost.
    apply take_Takes in Ht as [-> _]. simpl. split; [lia|done].
Qed.

Lemma worker_returns i s task w :
  workers s !! i = Some (Running task) →
  task (world s) = Returns w →
  moves_left (worker_step i s) < moves_left s
  ∧ terminated (worker_step i s) = terminated s.
Proof.
  intros Hi Hrun. unfold worker_step, moves_left. rewrite Hi, Hrun. simpl.
  rewrite length_insert.
  pose proof (cost_insert _ _ _ Polling Hi) as Hcost. simpl in Hcost.
  split; [lia|done].
Qed.

Lemma in_flight_returns (num_threads : nat) (todo : list (Task World)) s i task :
  consistent num_threads todo s →
  Forall always_returns todo →
  workers s !! i = Some (Running task) →
  ∃ w, task (world s) = Returns w.
Proof.
  intros Hc Hret Hi. pose proof (cons_tasks _ _ _ Hc) as Htasks.
  rewrite Forall_forall in Hret. apply Hret.
  rewrite Htasks. apply elem_of_app. right. apply elem_of_app. left.
  by eapply in_flight_Running.
Qed.

(** While every task returns the program is not terminated, and a move
    that a thread makes by itself either leaves the state as it is or
    uses up one of the moves that are left. *)
Lemma step_moves (num_threads : nat) (todo : list (Task World)) m s :
  consistent num_threads todo s →
  Forall always_returns todo →
  terminated s = false →
  (unprompted m = true → step m s = s ∨ moves_left (step m s) < moves_left s)
  ∧ terminated (step m s) = false.
Proof.
  intros Hc Hret Hterm. unfold step. rewrite Hterm.
  pose proof (cons_stop _ _ _ Hc) as Hstop.
  destruct m as [pick|i|i].
  - destruct (main s) as [todo'|todo'| |k|] eqn:Hm.
    + split.
      * intros _. right. apply owner_moves; [by rewrite Hm| |]; congruence.
      * unfold owner_step. rewrite Hm. destruct todo' as [|f rest]; [done|].
        by rewrite enqueue_open.
    + split.
      * intros _. right. apply owner_moves; [by rewrite Hm| |]; congruence.
      * unfold owner_step. by rewrite Hm.
    + split.
      * intros _. right. apply owner_moves; [by rewrite Hm| |]; congruence.
      * unfold owner_step. by rewrite Hm.
    + destruct (workers s !! k) as [[| |task|]|] eqn:Hk.
      * unfold owner_step. rewrite Hm, Hk. split; [by left|done].
      * unfold owner_step. rewrite Hm, Hk. split; [by left|done].
      * unfold owner_step. rewrite Hm, Hk. split; [by left|done].
      * split.
        -- intros _. right. apply owner_moves; [by rewrite Hm| |congruence].
           intros k' Hk'. rewrite Hm in Hk'. injection Hk' as <-. by right.
        -- unfold owner_step. by rewrite Hm, Hk.
      * split.
        -- intros _. right. apply owner_moves; [by rewrite Hm| |congruence].
           intros k' Hk'. rewrite Hm in Hk'. injection Hk' as <-. by left.
        -- unfold owner_step. by rewrite Hm, Hk.
    + unfold owner_step. rewrite Hm. split; [by left|done].
  - destruct (workers s !! i) as [[| |task|]|] eqn:Hi.
    + destruct (worker_polls _ _ Hi) as [Hlt Hsame].
      split; [by right|congruence].
    + unfold worker_step. rewrite Hi. split; [by left|done].
    + destruct (in_flight_returns _ _ _ _ _ Hc Hret Hi) as [w Hrun].
      destruct (worker_returns _ _ _ _ Hi Hrun) as [Hlt Hsame].
      split; [by right|congruence].
    + unfold worker_step. rewrite Hi. split; [by left|done].
    + unfold worker_step. rewrite Hi. split; [by left|done].
  - split; [done|]. unfold spurious_wakeup.
    by destruct (workers s !! i) as [[]|].
Qed.

Lemma run_not_terminated (num_threads : nat) (todo : list (Task World)) (sched : list move) :
  Forall always_returns todo →
  ∀ s, consistent num_threads todo s → terminated s = false →
  terminated (run sched s) = false.
Proof.
  intros Hret. induction sched as [|m sched IH]; intros s Hc Hterm; [done|].
  simpl. apply IH; [by apply consistent_step|].
  by apply (step_moves _ _ m s Hc Hret Hterm).
Qed.

(** Until the destructor has returned, some thread can move by itself. *)
Lemma some_thread_moves (num_threads : nat) (todo : list (Task World)) s :
  consistent num_threads todo s →
  Forall always_returns todo →
  terminated s = false →
  main s ≠ Destroyed →
  ∃ m, unprompted m = true ∧ moves_left (step m s) < moves_left s.
Proof.
  intros Hc Hret Hterm Hmain. unfold step. rewrite Hterm.
  pose proof (cons_stop _ _ _ Hc) as Hstop.
  destruct (main s) as [todo'|todo'| |k|] eqn:Hm; [..|done].
  - exists (Own 0). split; [done|]. apply owner_moves; [by rewrite Hm| |]; congruence.
  - exists (Own 0). split; [done|]. apply owner_moves; [by rewrite Hm| |]; congruence.
  - exists (Own 0). split; [done|]. apply owner_moves; [by rewrite Hm| |]; congruence.
  - destruct (workers s !! k) as [[| |task|]|] eqn:Hk.
    + exists (Work k). split; [done|]. by apply worker_polls.
    + destruct (cons_awake _ _ _ Hc k); [by rewrite Hm|done].
    + exists (Work k). split; [done|].
      destruct (in_flight_returns _ _ _ _ _ Hc Hret Hk) as [w Hrun].
      by apply (worker_returns _ _ _ _ Hk Hrun).
    + exists (Own 0). split; [done|]. apply owner_moves; [by rewrite Hm| |congruence].
      intros k' Hk'. rewrite Hm in Hk'. injection Hk' as <-. by right.
    + exists (Own 0). split; [done|]. apply owner_moves; [by rewrite Hm| |congruence].
      intros k' Hk'. rewrite Hm in Hk'. injection Hk' as <-. by left.
Qed.

(** So from every state the destructor returns within the moves that are
    left, with no help from spurious wakeups. *)
Lemma reaches_Destroyed (num_threads : nat) (todo : list (Task World)) :
  Forall always_returns todo →
  ∀ n s, moves_left s ≤ n → consistent num_threads todo s → terminated s = false →
  ∃ more,
    Forall (fun m => unprompted m = true) more
    ∧ length more ≤ n
    ∧ main (run more s) = Destroyed.
Proof.
  intros Hret. induction n as [|n IH]; intros s Hn Hc Hterm.
  - destruct (main s) eqn:Hm; [..|by exists []];
      (destruct (some_thread_moves _ _ s Hc Hret Hterm) as (m & _ & Hlt); [congruence|lia]).
  - destruct (main s) eqn:Hm; [..|exists []; split; [done|]; split; [simpl; lia|done]];
      (destruct (some_thread_moves _ _ s Hc Hret Hterm) as (m & Hm' & Hlt); [congruence|];
       destruct (IH (step m s)) as (more & Hall & Hlen & Hdone);
       [lia|by apply consistent_step|by apply (step_moves _ _ m s Hc Hret Hterm)|];
       exists (m :: more); split; [by constructor|]; split; [simpl; lia|done]).
Qed.

(** *** The claims about the pool *)

(** C3. When [stop] is set on a pool that holds [K] tasks, the next [K]
    passes through the worker's locked block each hand out a task, in the
    order the tasks were enqueued, and the pass after those ends the
    worker.  A pass ends the worker exactly when [stop] is set and the
    queue is empty. *)
Theorem stop_drains_then_exits (p : t World) :
  take_n (length (tasks p)) (request_stop p) = Some (tasks p, mk [] true)
  ∧ take (mk [] true : t World) = Exits
  ∧ (∀ p', take p' = Exits ↔ stop p' = true ∧ tasks p' = []).
Proof.
  split; [|split].
  - unfold request_stop. rewrite <- (app_nil_r (tasks p)) at 2. apply take_n_app.
  - by apply take_Exits.
  - apply take_Exits.
Qed.

(** C4. [enqueue] on a pool whose [stop] is set throws at once: it has no
    wait, the task is not stored and the pool is as it was.  In a running
    program that is every [enqueue] from the moment the destructor has set
    [stop], so every one after the destructor has returned. *)
Theorem enqueue_after_stop_throws (f : Task World) :
  (∀ p, stop p = true →
     enqueue f p = (Some (runtime_error "enqueue on stopped ThreadPool"), p))
  ∧ (∀ num_threads todo w sched,
       let s := run sched (init num_threads todo w) in
       stopping (main s) = true →
       enqueue f (pool s) = (Some (runtime_error "enqueue on stopped ThreadPool"), pool s)).
Proof.
  split.
  - intros p. apply enqueue_stopped.
  - intros num_threads todo w sched s Hmain. apply enqueue_stopped.
    rewrite <- Hmain. apply (cons_stop num_threads todo).
    apply consistent_run, consistent_init.
Qed.


(** C7. [stop] goes from false to true and never back: setting it twice
    is the same as setting it once, setting it on a pool where it is set
    changes nothing, and neither [enqueue], nor the worker's locked block,
    nor any move of any thread, the destructor's included, clears it. *)
Theorem stop_is_monotonic :
  (∀ p, request_stop (request_stop p) = request_stop p)
  ∧ (∀ p, stop p = true → request_stop p = p)
  ∧ (∀ p f, stop p = true → stop (enqueue f p).2 = true)
  ∧ (∀ p task p', stop p = true → take p = Takes task p' → stop p' = true)
  ∧ (∀ s m, stop (pool s) = true → stop (pool (step m s)) = true)
  ∧ (∀ s sched, stop (pool s) = true → stop (pool (run sched s)) = true).
Proof.
  repeat split.
  - intros [q b] Hstop. simpl in Hstop. by subst.
  - intros p f Hstop. by rewrite enqueue_stopped.
  - intros p task p' Hstop [_ ->]%take_Takes. done.
  - intros s m. apply step_stop.
  - intros s sched. apply run_stop.
Qed.

(** C8, amended.  Take a pool of at least one worker whose owner
    enqueues the tasks [todo] and then destroys the pool.  In every state
    the program reaches, spurious wakeups or not: if the destructor has
    returned, every worker has exited; if every worker has exited, the
    queue is empty and the tasks executed are the tasks of [todo], each
    once; and after the destructor's [notify_all] no worker sleeps.  If
    moreover every task returns, the program is never terminated, every
    move by which a thread changes the state uses up one of [moves_left],
    some thread can make such a move as long as the destructor has not
    returned, and so the destructor returns within [moves_left] further
    moves. *)
Theorem shutdown_joins_after_draining
    (num_threads : nat) (todo : list (Task World)) (w : World) (sched : list move) :
  0 < num_threads →
  let s := run sched (init num_threads todo w) in
  (main s = Destroyed → ∀ i, i < num_threads → workers s !! i = Some Exited)
  ∧ ((∀ i, i < num_threads → workers s !! i = Some Exited) →
     tasks (pool s) = [] ∧ executed s ≡ₚ todo)
  ∧ (joining (main s) = true → ∀ i, workers s !! i ≠ Some Sleeping)
  ∧ (Forall always_returns todo →
     terminated s = false
     ∧ (∀ m, unprompted m = true →
          step m s = s ∨ moves_left (step m s) < moves_left s)
     ∧ (main s ≠ Destroyed →
          ∃ m, unprompted m = true ∧ moves_left (step m s) < moves_left s)
     ∧ (∃ more, Forall (fun m => unprompted m = true) more
          ∧ length more ≤ moves_left s
          ∧ main (run (sched ++ more) (init num_threads todo w)) = Destroyed)).
Proof.
  intros Hpos s.
  assert (consistent num_threads todo s) as Hc.
  { apply consistent_run, consistent_init. }
  split; [|split; [|split]].
  - intros Hmain i Hlt.
    destruct (workers s !! i) as [x|] eqn:Hi.
    + by rewrite (cons_destroyed _ _ _ Hc i x Hmain Hi).
    + apply lookup_ge_None in Hi. rewrite (cons_workers _ _ _ Hc) in Hi. lia.
  - intros Hall. by destruct (consistent_all_exited _ _ _ Hpos Hc Hall) as (_ & ? & ?).
  - intros Hjoin i. by apply (cons_awake _ _ _ Hc).
  - intros Hret.
    assert (terminated s = false) as Hterm.
    { apply (run_not_terminated num_threads todo); [done|apply consistent_init|done]. }
    split; [done|]. split; [|split].
    + intros m. by apply (step_moves _ _ m s Hc Hret Hterm).
    + by apply (some_thread_moves num_threads todo).
    + destruct (reaches_Destroyed num_threads todo Hret (moves_left s) s)
        as (more & Hall & Hlen & Hdone); [done..|].
      exists more. by rewrite run_app.
Qed.

End Pool.

Import PoolDemo.

Lemma stop_drains_then_exits_witness :
  take_n 2 (request_stop (mk [say 1; say 2] false))
  = Some ([say 1; say 2], mk [] true)
  ∧ take (mk [] true : t (list nat)) = Exits.
Proof.
  destruct (stop_drains_then_exits (mk [say 1; say 2] false)) as (Hdrain & Hexit & _).
  by split.
Defined.

Lemma stop_is_monotonic_witness :
  request_stop (mk [say 1] true) = mk [say 1] true
  ∧ stop (enqueue (say 2) (mk [say 1] true)).2 = true
  ∧ stop (pool (run shutdown_schedule (run [Own 0] (init 2 [] ([] : list nat))))) = true.
Proof.
  destruct (@stop_is_monotonic (list nat)) as (_ & Hset & Henq & _ & _ & Hrun).
  split; [by apply Hset|]. split; [by apply Henq|].
  apply Hrun. reflexivity.
Defined.

Lemma enqueue_after_stop_throws_witness :
  let s := run (begin_shutdown ++ [Work 0; Own 0; Own 0]) (init 1 [] []) in
  main s = Destroyed
  ∧ enqueue (say 1) (pool s)
    = (Some (runtime_error "enqueue on stopped ThreadPool"), mk [] true).
Proof.
  split; [reflexivity|].
  apply (proj2 (enqueue_after_stop_throws (say 1)) 1 [] []
           (begin_shutdown ++ [Work 0; Own 0; Own 0])).
  reflexivity.
Defined.



(** C8 as stated fails in two ways.  A pool of no workers is destroyed
    with its task still queued and never run.  And with one worker, a task
    that throws terminates the program: the task behind it is never run,
    the worker never exits, and the destructor never returns. *)
Lemma shutdown_leaves_tasks :
  (let s := run (submit_one ++ begin_shutdown ++ [Own 0]) (init 0 [say 7] []) in
   main s = Destroyed ∧ tasks (pool s) = [say 7] ∧ executed s = [])
  ∧ (let s := run (submit_one ++ submit_one ++ begin_shutdown ++ [Work 0; Work 0])
                (init 1 [fail; say 7] []) in
     ∀ sched,
       main (run sched s) = Joining 0
       ∧ workers (run sched s) = [Running fail]
       ∧ tasks (pool (run sched s)) = [say 7]
       ∧ executed (run sched s) = []).
Proof.
  split; [by repeat split|].
  intros s sched. rewrite run_terminated by reflexivity. by repeat split.
Qed.

Lemma shutdown_joins_after_draining_witness :
  let s := run shutdown_schedule (init 2 [say 1; say 2; say 3] []) in
  main s = Destroyed
  ∧ workers s = [Exited; Exited]
  ∧ world s = [1; 2; 3]
  ∧ executed s ≡ₚ [say 1; say 2; say 3]
  ∧ terminated s = false.
Proof.
  intros s.
  destruct (shutdown_joins_after_draining 2 [say 1; say 2; say 3] [] shutdown_schedule)
    as (Hjoin & Hdrained & _ & Hlive); [lia|].
  fold s in Hjoin, Hdrained, Hlive.
  split; [reflexivity|]. split; [reflexivity|]. split; [reflexivity|].
  split.
  - apply Hdrained, Hjoin. reflexivity.
  - apply Hlive. repeat constructor; intros w; by eexists.
Defined.

End ThreadPoolFacts.

(** ** The escape-time loop returns within its bound *)

Module MandelbrotFacts.
Import Mandelbrot.
Section Loop.
Variable std_pow : complex -> Z -> complex.
Variable std_abs : complex -> float.

Local Abbreviation escaped := (escaped std_abs).
Local Abbreviation iterate := (iterate std_pow).
Local Abbreviation for_loop := (for_loop std_pow std_abs).

(** Entered at counter [k] with the [k]-th iterate, none of the earlier
    iterates having escaped, the loop returns with the fuel that is left
    of [MAX_ITERATIONS], and what it returns is the first step at which
    an iterate escapes, or [MAX_ITERATIONS] when none does. *)
Lemma for_loop_from (fuel : nat) (c : complex) : ∀ k : nat,
  fuel + k = Z.to_nat MAX_ITERATIONS →
  (∀ j, j < k → escaped (iterate c (S j)) = false) →
  ∃ n : Z,
    for_loop fuel c (Z.of_nat k) (iterate c k) = Some n
    ∧ (Z.of_nat k ≤ n ≤ MAX_ITERATIONS)%Z
    ∧ (∀ j, j < Z.to_nat n → escaped (iterate c (S j)) = false)
    ∧ ((n < MAX_ITERATIONS)%Z → escaped (iterate c (S (Z.to_nat n))) = true).
Proof.
  unfold MAX_ITERATIONS.
  induction fuel as [|fuel IH]; intros k Hk Hearlier.
  - assert (k = 100) as -> by lia.
    exists 100%Z. simpl. repeat split; try lia.
    intros j Hj. apply Hearlier. lia.
  - assert ((Z.of_nat k <? 100)%Z = true) as Hlt by (apply Z.ltb_lt; lia).
    simpl. unfold MAX_ITERATIONS. rewrite Hlt.
    change (next std_pow c (iterate c k)) with (iterate c (S k)).
    destruct (escaped (iterate c (S k))) eqn:Hesc.
    + exists (Z.of_nat k). rewrite Nat2Z.id. repeat split; try lia; auto.
    + replace (Z.of_nat k + 1)%Z with (Z.of_nat (S k)) by lia.
      destruct (IH (S k)) as (n & Hn & Hrange & Hnone & Hfirst).
      * lia.
      * intros j Hj. destruct (decide (j = k)) as [->|]; [done|].
        apply Hearlier. lia.
      * exists n. repeat split; try lia; auto.
Qed.

End Loop.

(** C10. For every [c], [mandelbrotIterations c] returns after at most
  [MAX_ITERATIONS] executions of the loop body (that much fuel is
  enough), with some [n] between 0 and [MAX_ITERATIONS]; no iterate
  before step [n] has a magnitude above 2.0; and when [n] is below
  [MAX_ITERATIONS] the iterate computed at step [n] has.  So a value
  below [MAX_ITERATIONS] is returned only on an escape at that step, and
  [MAX_ITERATIONS] exactly when none of the iterates escapes. *)
Theorem mandelbrotIterations_bounded
  (std_pow : complex -> Z -> complex) (std_abs : complex -> float) (c : complex) :
∃ n : Z,
  mandelbrotIterations std_pow std_abs c = Some n
  ∧ (0 ≤ n ≤ MAX_ITERATIONS)%Z
  ∧ (∀ j, j < Z.to_nat n → escaped std_abs (iterate std_pow c (S j)) = false)
  ∧ ((n < MAX_ITERATIONS)%Z →
     escaped std_abs (iterate std_pow c (S (Z.to_nat n))) = true).
Proof.
unfold mandelbrotIterations.
apply (for_loop_from std_pow std_abs (Z.to_nat MAX_ITERATIONS) c 0).
- lia.
- intros j Hj. lia.
Qed.

Import MandelbrotDemo.

(** The loop run on three points: the origin never escapes; [1 + i]
    escapes at the second step; [3] escapes at the first. *)
Example mandelbrot_origin :
  mandelbrotIterations pow_by_mul abs_by_sqrt (0%float, 0%float) = Some 100%Z.
Proof. vm_compute. reflexivity. Qed.

Example mandelbrot_one_plus_i :
  mandelbrotIterations pow_by_mul abs_by_sqrt (1%float, 1%float) = Some 1%Z.
Proof. vm_compute. reflexivity. Qed.

(** A [c] that is not a number never compares above 2.0. *)
Example mandelbrot_nan :
  mandelbrotIterations pow_by_mul abs_by_sqrt (PrimFloat.nan, 0%float) = Some 100%Z.
Proof. vm_compute. reflexivity. Qed.

Example mandelbrot_three :
  mandelbrotIterations pow_by_mul abs_by_sqrt (3%float, 0%float) = Some 0%Z.
Proof. vm_compute. reflexivity. Qed.

End MandelbrotFacts.

(** ** Progress of the threads that share the queue *)

Module PCQProgressFacts.
Import PCQ PCQProgress PCQFacts.
Section Queue.
Context {T : Type}.
Implicit Types (c : t T) (item : T) (s : sys T) (th : thread T)
  (ths : list (thread T)) (g : thread T → nat).

(** *** Sums over the threads *)

Lemma total_insert g ths i th th' :
  ths !! i = Some th →
  total g (<[i := th']> ths) + g th = total g ths + g th'.
Proof.
  unfold total. revert i. induction ths as [|x ths IH]; intros [|i] Hi; simplify_eq/=.
  - lia.
  - specialize (IH _ Hi). lia.
Qed.

Lemma total_zero g ths i th : total g ths = 0 → ths !! i = Some th → g th = 0.
Proof.
  unfold total. revert i. induction ths as [|x ths IH]; intros [|i] Hz Hi; simplify_eq/=.
  - lia.
  - apply (IH i); [lia|done].
Qed.

Lemma total_pos g ths : 0 < total g ths → ∃ i th, ths !! i = Some th ∧ 0 < g th.
Proof.
  unfold total. induction ths as [|x ths IH]; [simpl; lia|].
  rewrite fmap_cons. cbn [sum_list_with]. unfold id at 1. intros Hpos.
  destruct (decide (0 < g x)) as [Hx|Hx].
  - by exists 0, x.
  - destruct IH as (i & th & Hi & Hth); [lia|]. by exists (S i), th.
Qed.

(** *** What a notification does *)

Lemma wake_first_spec (cv : thread T → bool) ths :
  (total (fun th => one_if (cv th)) ths = 0 ∧ wake_first cv ths = ths)
  ∨ ∃ j th, ths !! j = Some th ∧ cv th = true
            ∧ wake_first cv ths = <[j := awaken th]> ths.
Proof.
  unfold total. induction ths as [|x ths IH]; simpl; [by left|].
  destruct (cv x) eqn:Hx; simpl.
  - right. by exists 0, x.
  - destruct IH as [[Hz ->]|(j & th & Hj & Hth & ->)].
    + by left.
    + right. by exists (S j), th.
Qed.

Lemma notify_one_spec (cv : thread T → bool) pick ths :
  (total (fun th => one_if (cv th)) ths = 0 ∧ notify_one cv pick ths = ths)
  ∨ ∃ j th, ths !! j = Some th ∧ cv th = true
            ∧ notify_one cv pick ths = <[j := awaken th]> ths.
Proof.
  unfold notify_one. destruct (ths !! pick) as [th|] eqn:Hpick;
    [|apply wake_first_spec].
  destruct (cv th) eqn:Hth; [|apply wake_first_spec].
  right. by exists pick, th.
Qed.

(** *** The ways in which a move changes the state *)

(** A move leaves the state as it is, or puts an awake thread to sleep
    in a call that has to wait, or completes a push or a pop and
    notifies, or is a spurious wakeup. *)
Lemma step_elim_event (P : option (event T) → sys T → Prop) m s :
  P None s →
  (∀ tid th,
     threads s !! tid = Some th → asleep th = false →
     (wants_push th = true ∧ (max_size_ (chan s) ≤ size (chan s))%N)
     ∨ (wants_pop th = true ∧ q_ (chan s) = []) →
     unprompted m = true →
     P None (mkSys (chan s) (<[tid := mkThread (todo th) true]> (threads s)))) →
  (∀ tid pick th item rest,
     threads s !! tid = Some th → asleep th = false →
     todo th = Push item :: rest →
     (size (chan s) < max_size_ (chan s))%N →
     unprompted m = true →
     P (Some (Pushed tid item))
       (mkSys (mk (q_ (chan s) ++ [item]) (max_size_ (chan s)))
          (notify_one on_cv_empty pick (<[tid := mkThread rest false]> (threads s))))) →
  (∀ tid pick th item rest q',
     threads s !! tid = Some th → asleep th = false →
     todo th = Pop :: rest →
     q_ (chan s) = item :: q' →
     unprompted m = true →
     P (Some (Popped tid item))
       (mkSys (mk q' (max_size_ (chan s)))
          (notify_one on_cv_full pick (<[tid := mkThread rest false]> (threads s))))) →
  (∀ tid th,
     threads s !! tid = Some th → unprompted m = false →
     P None (mkSys (chan s) (<[tid := awaken th]> (threads s)))) →
  P (step m s).1 (step m s).2.
Proof.
  intros Hsame Hsleep Hpush Hpop Hwake. unfold step.
  destruct m as [tid pick|tid].
  - destruct (threads s !! tid) as [th|] eqn:Hth; [|done].
    destruct (asleep th) eqn:Hawake; [done|].
    destruct (todo th) as [|[item|] rest] eqn:Htodo; [done|..].
    + destruct (push item (chan s)) as [c'|] eqn:Hp; simpl.
      * apply push_Some in Hp as [Hlt ->]. by eapply Hpush.
      * apply push_None in Hp. rewrite <- Htodo. apply Hsleep; try done.
        left. unfold wants_push. by rewrite Htodo.
    + destruct (pop (chan s)) as [[item c']|] eqn:Hp; simpl.
      * apply pop_Some in Hp as [Hq Hmax]. destruct c' as [q' C']. simpl in *.
        subst C'. by eapply Hpop.
      * apply pop_None in Hp. rewrite <- Htodo. apply Hsleep; try done.
        right. unfold wants_pop. by rewrite Htodo.
  - destruct (threads s !! tid) as [th|] eqn:Hth; [|done]. simpl. by apply Hwake.
Qed.

Lemma step_elim (P : sys T → Prop) m s :
  P s →
  (∀ tid th,
     threads s !! tid = Some th → asleep th = false →
     (wants_push th = true ∧ (max_size_ (chan s) ≤ size (chan s))%N)
     ∨ (wants_pop th = true ∧ q_ (chan s) = []) →
     unprompted m = true →
     P (mkSys (chan s) (<[tid := mkThread (todo th) true]> (threads s)))) →
  (∀ tid pick th item rest,
     threads s !! tid = Some th → asleep th = false →
     todo th = Push item :: rest →
     (size (chan s) < max_size_ (chan s))%N →
     unprompted m = true →
     P (mkSys (mk (q_ (chan s) ++ [item]) (max_size_ (chan s)))
          (notify_one on_cv_empty pick (<[tid := mkThread rest false]> (threads s))))) →
  (∀ tid pick th item rest q',
     threads s !! tid = Some th → asleep th = false →
     todo th = Pop :: rest →
     q_ (chan s) = item :: q' →
     unprompted m = true →
     P (mkSys (mk q' (max_size_ (chan s)))
          (notify_one on_cv_full pick (<[tid := mkThread rest false]> (threads s))))) →
  (∀ tid th,
     threads s !! tid = Some th → unprompted m = false →
     P (mkSys (chan s) (<[tid := awaken th]> (threads s)))) →
  P (step m s).2.
Proof. intros. by apply (step_elim_event (fun _ s' => P s')). Qed.

(** The weights of the threads that a move touches. *)
Ltac weigh :=
  unfold awake_popper, asleep_popper, awake_pusher, asleep_pusher, awake_one,
    pushes_left, pops_left, on_cv_empty, on_cv_full, wants_pop, wants_push,
    awaken, one_if, free, size in *;
  simpl in *.

Lemma on_cv_empty_inv th :
  on_cv_empty th = true → ∃ rest, th = mkThread (Pop :: rest) true.
Proof.
  destruct th as [[|[item|] rest] []]; unfold on_cv_empty; simpl; try done.
  intros _. by eexists.
Qed.

Lemma on_cv_full_inv th :
  on_cv_full th = true → ∃ item rest, th = mkThread (Push item :: rest) true.
Proof.
  destruct th as [[|[item|] rest] []]; unfold on_cv_full; simpl; try done.
  intros _. by eexists _, _.
Qed.

(** *** Notifications are not lost *)

Lemma steady_step m s : steady s → steady (step m s).2.
Proof.
  intros [Hsize Hpops Hpushes]. apply step_elim; [done|..].
  - intros tid th Hth Hawake Hwait _.
    pose proof (total_insert awake_popper _ _ _ (mkThread (todo th) true) Hth) as E1.
    pose proof (total_insert asleep_popper _ _ _ (mkThread (todo th) true) Hth) as E2.
    pose proof (total_insert awake_pusher _ _ _ (mkThread (todo th) true) Hth) as E3.
    pose proof (total_insert asleep_pusher _ _ _ (mkThread (todo th) true) Hth) as E4.
    destruct Hwait as [[Hw Hfull]|[Hw Hq]].
    + destruct th as [[|[item|] rest] []]; try done; split; weigh; lia.
    + destruct th as [[|[item|] rest] []]; try done;
        split; cbn [chan threads]; rewrite ?Hq; weigh; lia.
  - intros tid pick th item rest Hth Hawake Htodo Hlt _.
    set (th1 := mkThread rest false) in *.
    pose proof (total_insert awake_popper _ _ _ th1 Hth) as E1.
    pose proof (total_insert asleep_popper _ _ _ th1 Hth) as E2.
    pose proof (total_insert awake_pusher _ _ _ th1 Hth) as E3.
    pose proof (total_insert asleep_pusher _ _ _ th1 Hth) as E4.
    destruct th as [todo_th []]; simpl in Hawake, Htodo; subst todo_th; [done|].
    destruct (notify_one_spec on_cv_empty pick (<[tid := th1]> (threads s)))
      as [[Hz ->]|(j & thj & Hj & Hcv & ->)].
    + split; cbn [chan threads q_ max_size_];
        destruct rest as [|[x|] rest]; weigh; rewrite ?length_app; simpl; lia.
    + pose proof (total_insert awake_popper _ _ _ (awaken thj) Hj) as F1.
      pose proof (total_insert asleep_popper _ _ _ (awaken thj) Hj) as F2.
      pose proof (total_insert awake_pusher _ _ _ (awaken thj) Hj) as F3.
      pose proof (total_insert asleep_pusher _ _ _ (awaken thj) Hj) as F4.
      apply on_cv_empty_inv in Hcv as [restj ->].
      split; cbn [chan threads q_ max_size_];
        destruct rest as [|[x|] rest]; weigh; rewrite ?length_app; simpl; lia.
  - intros tid pick th item rest q' Hth Hawake Htodo Hq _.
    set (th1 := mkThread rest false) in *.
    pose proof (total_insert awake_popper _ _ _ th1 Hth) as E1.
    pose proof (total_insert asleep_popper _ _ _ th1 Hth) as E2.
    pose proof (total_insert awake_pusher _ _ _ th1 Hth) as E3.
    pose proof (total_insert asleep_pusher _ _ _ th1 Hth) as E4.
    destruct th as [todo_th []]; simpl in Hawake, Htodo; subst todo_th; [done|].
    rewrite Hq in *.
    destruct (notify_one_spec on_cv_full pick (<[tid := th1]> (threads s)))
      as [[Hz ->]|(j & thj & Hj & Hcv & ->)].
    + split; cbn [chan threads q_ max_size_];
        destruct rest as [|[x|] rest]; weigh; rewrite ?Hq in *; simpl in *; lia.
    + pose proof (total_insert awake_popper _ _ _ (awaken thj) Hj) as F1.
      pose proof (total_insert asleep_popper _ _ _ (awaken thj) Hj) as F2.
      pose proof (total_insert awake_pusher _ _ _ (awaken thj) Hj) as F3.
      pose proof (total_insert asleep_pusher _ _ _ (awaken thj) Hj) as F4.
      apply on_cv_full_inv in Hcv as (itemj & restj & ->).
      split; cbn [chan threads q_ max_size_];
        destruct rest as [|[x|] rest]; weigh; rewrite ?Hq in *; simpl in *; lia.
  - intros tid th Hth _.
    pose proof (total_insert awake_popper _ _ _ (awaken th) Hth) as E1.
    pose proof (total_insert asleep_popper _ _ _ (awaken th) Hth) as E2.
    pose proof (total_insert awake_pusher _ _ _ (awaken th) Hth) as E3.
    pose proof (total_insert asleep_pusher _ _ _ (awaken th) Hth) as E4.
    destruct th as [[|[item|] rest] []]; split; weigh; lia.
Qed.

Lemma steady_run (sched : list move) : ∀ s, steady s → steady (run sched s).2.
Proof.
  induction sched as [|m sched IH]; intros s Hs; [done|].
  rewrite run_cons. simpl. by apply IH, steady_step.
Qed.

Lemma steady_init (C : N) (programs : list (list (call T))) : steady (init C programs).
Proof.
  assert (∀ g, (∀ p, g (mkThread p false) = 0) →
               total g (threads (init C programs)) = 0) as Hzero.
  { intros g Hg. unfold total. simpl.
    induction programs as [|p programs IH]; [done|]. simpl. rewrite Hg. done. }
  split; simpl; [lia| |]; left; apply Hzero; intros p; weigh; done.
Qed.

(** X1. Notifications are not lost, whatever the threads do and
    however they are scheduled.  Either no thread sleeps in [pop], or
    the queue holds no more items than there are threads awake in [pop]:
    an item in the queue always has a thread awake to take it.  Either no
    thread sleeps in [push], or the queue has no more free places than
    there are threads awake in [push]. *)
Theorem notifications_not_lost (C : N) (programs : list (list (call T))) (sched : list move) :
  let s := (run sched (init C programs)).2 in
  (total asleep_popper (threads s) = 0
   ∨ length (q_ (chan s)) ≤ total awake_popper (threads s))
  ∧ (total asleep_pusher (threads s) = 0
     ∨ free (chan s) ≤ total awake_pusher (threads s)).
Proof.
  intros s. destruct (steady_run sched (init C programs)) as [_ Hpop Hpush].
  { apply steady_init. }
  by split.
Qed.

(** *** Producers and consumers *)

Lemma left_after_push th item rest (b : bool) :
  todo th = Push item :: rest →
  pushes_left th = S (pushes_left (mkThread rest b))
  ∧ pops_left th = pops_left (mkThread rest b).
Proof. unfold pushes_left, pops_left. by intros ->. Qed.

Lemma left_after_pop th rest (b : bool) :
  todo th = Pop :: rest →
  pushes_left th = pushes_left (mkThread rest b)
  ∧ pops_left th = S (pops_left (mkThread rest b)).
Proof. unfold pushes_left, pops_left. by intros ->. Qed.

Lemma balanced_step m s : balanced s → balanced (step m s).2.
Proof.
  unfold balanced. intros Hb. apply step_elim; [done|..].
  - intros tid th Hth _ _ _.
    pose proof (total_insert pushes_left _ _ _ (mkThread (todo th) true) Hth) as E1.
    pose proof (total_insert pops_left _ _ _ (mkThread (todo th) true) Hth) as E2.
    change (pushes_left (mkThread (todo th) true)) with (pushes_left th) in E1.
    change (pops_left (mkThread (todo th) true)) with (pops_left th) in E2.
    cbn [chan threads]. lia.
  - intros tid pick th item rest Hth _ Htodo _ _.
    pose proof (total_insert pushes_left _ _ _ (mkThread rest false) Hth) as E1.
    pose proof (total_insert pops_left _ _ _ (mkThread rest false) Hth) as E2.
    destruct (left_after_push th item rest false Htodo) as [L1 L2].
    cbn [chan threads q_]. rewrite length_app. cbn [length].
    destruct (notify_one_spec on_cv_empty pick (<[tid := mkThread rest false]> (threads s)))
      as [[Hz ->]|(j & thj & Hj & Hcv & ->)]; [lia|].
    pose proof (total_insert pushes_left _ _ _ (awaken thj) Hj) as F1.
    pose proof (total_insert pops_left _ _ _ (awaken thj) Hj) as F2.
    change (pushes_left (awaken thj)) with (pushes_left thj) in F1.
    change (pops_left (awaken thj)) with (pops_left thj) in F2.
    lia.
  - intros tid pick th item rest q' Hth _ Htodo Hq _.
    pose proof (total_insert pushes_left _ _ _ (mkThread rest false) Hth) as E1.
    pose proof (total_insert pops_left _ _ _ (mkThread rest false) Hth) as E2.
    destruct (left_after_pop th rest false Htodo) as [L1 L2].
    cbn [chan threads q_]. rewrite Hq in Hb. cbn [length] in Hb.
    destruct (notify_one_spec on_cv_full pick (<[tid := mkThread rest false]> (threads s)))
      as [[Hz ->]|(j & thj & Hj & Hcv & ->)]; [lia|].
    pose proof (total_insert pushes_left _ _ _ (awaken thj) Hj) as F1.
    pose proof (total_insert pops_left _ _ _ (awaken thj) Hj) as F2.
    change (pushes_left (awaken thj)) with (pushes_left thj) in F1.
    change (pops_left (awaken thj)) with (pops_left thj) in F2.
    lia.
  - intros tid th Hth _.
    pose proof (total_insert pushes_left _ _ _ (awaken th) Hth) as E1.
    pose proof (total_insert pops_left _ _ _ (awaken th) Hth) as E2.
    change (pushes_left (awaken th)) with (pushes_left th) in E1.
    change (pops_left (awaken th)) with (pops_left th) in E2.
    cbn [chan threads]. lia.
Qed.

Lemma one_sided_tail (x : call T) (rest : list (call T)) :
  one_sided (x :: rest) = true → one_sided rest = true.
Proof.
  unfold one_sided. simpl.
  destruct (is_push x), (is_pop_call x), (forallb is_push rest),
    (forallb is_pop_call rest); done.
Qed.

Lemma notify_one_Forall (P : thread T → Prop) (cv : thread T → bool) pick ths :
  (∀ th, P th → P (awaken th)) → Forall P ths → Forall P (notify_one cv pick ths).
Proof.
  intros Hwake Hall.
  destruct (notify_one_spec cv pick ths) as [[_ ->]|(j & thj & Hj & _ & ->)]; [done|].
  apply Forall_insert; [done|]. apply Hwake. by eapply Forall_lookup_1.
Qed.

Lemma one_sided_step m s :
  Forall (fun th => one_sided (todo th) = true) (threads s) →
  Forall (fun th => one_sided (todo th) = true) (threads (step m s).2).
Proof.
  intros Hall. apply step_elim; [done|..].
  - intros tid th Hth _ _ _.
    pose proof (Forall_lookup_1 _ _ _ _ Hall Hth) as Hsided. simpl in Hsided.
    simpl. by apply Forall_insert.
  - intros tid pick th item rest Hth _ Htodo _ _.
    pose proof (Forall_lookup_1 _ _ _ _ Hall Hth) as Hsided. simpl in Hsided.
    rewrite Htodo in Hsided. apply one_sided_tail in Hsided.
    simpl. apply notify_one_Forall; [done|]. by apply Forall_insert.
  - intros tid pick th item rest q' Hth _ Htodo _ _.
    pose proof (Forall_lookup_1 _ _ _ _ Hall Hth) as Hsided. simpl in Hsided.
    rewrite Htodo in Hsided. apply one_sided_tail in Hsided.
    simpl. apply notify_one_Forall; [done|]. by apply Forall_insert.
  - intros tid th Hth _.
    pose proof (Forall_lookup_1 _ _ _ _ Hall Hth) as Hsided. simpl in Hsided.
    simpl. by apply Forall_insert.
Qed.

Lemma all_pops_no_push (cs : list (call T)) :
  forallb is_pop_call cs = true →
  sum_list ((fun x => one_if (is_push x)) <$> cs) = 0.
Proof.
  induction cs as [|x cs IH]; [done|]. destruct x as [item|]; [done|].
  intros Hall. rewrite fmap_cons. cbn [sum_list_with]. by rewrite IH.
Qed.

Lemma all_pushes_no_pop (cs : list (call T)) :
  forallb is_push cs = true →
  sum_list ((fun x => one_if (is_pop_call x)) <$> cs) = 0.
Proof.
  induction cs as [|x cs IH]; [done|]. destruct x as [item|]; [|done].
  intros Hall. rewrite fmap_cons. cbn [sum_list_with]. by rewrite IH.
Qed.

Lemma not_pusher_no_push th :
  one_sided (todo th) = true →
  awake_pusher th = 0 → asleep_pusher th = 0 → pushes_left th = 0.
Proof.
  destruct th as [[|[item|] rest] b].
  - done.
  - intros _. destruct b; weigh; done.
  - unfold one_sided, pushes_left. simpl. intros Hsided _ _.
    rewrite all_pops_no_push; done.
Qed.

Lemma not_popper_no_pop th :
  one_sided (todo th) = true →
  awake_popper th = 0 → asleep_popper th = 0 → pops_left th = 0.
Proof.
  destruct th as [[|[item|] rest] b].
  - done.
  - unfold one_sided, pops_left. simpl. intros Hsided _ _.
    rewrite orb_false_r in Hsided. rewrite all_pushes_no_pop; done.
  - intros _. destruct b; weigh; done.
Qed.

(** Among one-sided threads, when nobody is in [push], awake or asleep,
    no push is left to do; and the same for [pop]. *)
Lemma no_pusher_no_push ths :
  Forall (fun th => one_sided (todo th) = true) ths →
  total awake_pusher ths = 0 → total asleep_pusher ths = 0 →
  total pushes_left ths = 0.
Proof.
  unfold total. induction ths as [|th ths IH]; [done|].
  intros [Hth Hall]%Forall_cons. rewrite !fmap_cons. cbn [sum_list_with].
  unfold id at 1 3 5. intros Ha Hs. rewrite IH by (done || lia).
  rewrite not_pusher_no_push; [done|done|lia|lia].
Qed.

Lemma no_popper_no_pop ths :
  Forall (fun th => one_sided (todo th) = true) ths →
  total awake_popper ths = 0 → total asleep_popper ths = 0 →
  total pops_left ths = 0.
Proof.
  unfold total. induction ths as [|th ths IH]; [done|].
  intros [Hth Hall]%Forall_cons. rewrite !fmap_cons. cbn [sum_list_with].
  unfold id at 1 3 5. intros Ha Hs. rewrite IH by (done || lia).
  rewrite not_popper_no_pop; [done|done|lia|lia].
Qed.

Lemma asleep_popper_pops ths : total asleep_popper ths ≤ total pops_left ths.
Proof.
  unfold total. induction ths as [|th ths IH]; [done|].
  rewrite !fmap_cons. cbn [sum_list_with]. unfold id at 1 3.
  assert (asleep_popper th ≤ pops_left th); [|lia].
  destruct th as [[|[item|] rest] []]; weigh; lia.
Qed.

Lemma asleep_pusher_pushes ths : total asleep_pusher ths ≤ total pushes_left ths.
Proof.
  unfold total. induction ths as [|th ths IH]; [done|].
  rewrite !fmap_cons. cbn [sum_list_with]. unfold id at 1 3.
  assert (asleep_pusher th ≤ pushes_left th); [|lia].
  destruct th as [[|[item|] rest] []]; weigh; lia.
Qed.

(** No deadlock: with room for at least one item, producers and
    consumers, and as many pops as pushes, some thread with a call left
    is awake as long as any call is left. *)
Lemma some_thread_awake s :
  (0 < max_size_ (chan s))%N →
  steady s → balanced s →
  Forall (fun th => one_sided (todo th) = true) (threads s) →
  0 < total pushes_left (threads s) + total pops_left (threads s) →
  ∃ tid th, threads s !! tid = Some th ∧ asleep th = false ∧ todo th ≠ [].
Proof.
  intros Hcap [Hsize Hpop Hpush] Hbal Hsided Hleft. unfold balanced, free in *.
  pose proof (asleep_popper_pops (threads s)) as Hsp.
  pose proof (asleep_pusher_pushes (threads s)) as Hsu.
  pose proof (no_pusher_no_push (threads s) Hsided) as Hnu.
  pose proof (no_popper_no_pop (threads s) Hsided) as Hnp.
  destruct (decide (0 < total awake_popper (threads s))) as [Hap|Hap].
  { apply total_pos in Hap as (tid & th & Hth & Hw). exists tid, th.
    destruct th as [[|[item|] rest] []]; weigh; try lia. done. }
  destruct (decide (0 < total awake_pusher (threads s))) as [Hau|Hau].
  { apply total_pos in Hau as (tid & th & Hth & Hw). exists tid, th.
    destruct th as [[|[item|] rest] []]; weigh; try lia. done. }
  exfalso.
  destruct (decide (total asleep_popper (threads s) = 0)) as [Hsp0|Hsp0];
    destruct (decide (total asleep_pusher (threads s) = 0)) as [Hsu0|Hsu0];
    lia.
Qed.

(** A move by which a thread changes the state uses up one of
    [calls_left]. *)
Lemma step_calls_left m s :
  unprompted m = true →
  (step m s).2 = s ∨ calls_left (step m s).2 < calls_left s.
Proof.
  intros Hm. apply step_elim; [by left|..].
  - intros tid th Hth Hawake _ _. right. unfold calls_left. cbn [threads].
    pose proof (total_insert pushes_left _ _ _ (mkThread (todo th) true) Hth) as E1.
    pose proof (total_insert pops_left _ _ _ (mkThread (todo th) true) Hth) as E2.
    pose proof (total_insert awake_one _ _ _ (mkThread (todo th) true) Hth) as E3.
    change (pushes_left (mkThread (todo th) true)) with (pushes_left th) in E1.
    change (pops_left (mkThread (todo th) true)) with (pops_left th) in E2.
    replace (awake_one th) with 1 in E3 by (unfold awake_one; by rewrite Hawake).
    change (awake_one (mkThread (todo th) true)) with 0 in E3. lia.
  - intros tid pick th item rest Hth Hawake Htodo _ _. right.
    unfold calls_left. cbn [threads].
    pose proof (total_insert pushes_left _ _ _ (mkThread rest false) Hth) as E1.
    pose proof (total_insert pops_left _ _ _ (mkThread rest false) Hth) as E2.
    pose proof (total_insert awake_one _ _ _ (mkThread rest false) Hth) as E3.
    destruct (left_after_push th item rest false Htodo) as [L1 L2].
    replace (awake_one th) with 1 in E3 by (unfold awake_one; by rewrite Hawake).
    change (awake_one (mkThread rest false)) with 1 in E3.
    destruct (notify_one_spec on_cv_empty pick (<[tid := mkThread rest false]> (threads s)))
      as [[Hz ->]|(j & thj & Hj & Hcv & ->)]; [lia|].
    pose proof (total_insert pushes_left _ _ _ (awaken thj) Hj) as F1.
    pose proof (total_insert pops_left _ _ _ (awaken thj) Hj) as F2.
    pose proof (total_insert awake_one _ _ _ (awaken thj) Hj) as F3.
    change (pushes_left (awaken thj)) with (pushes_left thj) in F1.
    change (pops_left (awaken thj)) with (pops_left thj) in F2.
    apply on_cv_empty_inv in Hcv as [restj ->].
    change (awake_one (awaken (mkThread (Pop :: restj) true))) with 1 in F3.
    change (awake_one (mkThread (Pop :: restj) true)) with 0 in F3. lia.
  - intros tid pick th item rest q' Hth Hawake Htodo _ _. right.
    unfold calls_left. cbn [threads].
    pose proof (total_insert pushes_left _ _ _ (mkThread rest false) Hth) as E1.
    pose proof (total_insert pops_left _ _ _ (mkThread rest false) Hth) as E2.
    pose proof (total_insert awake_one _ _ _ (mkThread rest false) Hth) as E3.
    destruct (left_after_pop th rest false Htodo) as [L1 L2].
    replace (awake_one th) with 1 in E3 by (unfold awake_one; by rewrite Hawake).
    change (awake_one (mkThread rest false)) with 1 in E3.
    destruct (notify_one_spec on_cv_full pick (<[tid := mkThread rest false]> (threads s)))
      as [[Hz ->]|(j & thj & Hj & Hcv & ->)]; [lia|].
    pose proof (total_insert pushes_left _ _ _ (awaken thj) Hj) as F1.
    pose proof (total_insert pops_left _ _ _ (awaken thj) Hj) as F2.
    pose proof (total_insert awake_one _ _ _ (awaken thj) Hj) as F3.
    change (pushes_left (awaken thj)) with (pushes_left thj) in F1.
    change (pops_left (awaken thj)) with (pops_left thj) in F2.
    apply on_cv_full_inv in Hcv as (itemj & restj & ->).
    change (awake_one (awaken (mkThread (Push itemj :: restj) true))) with 1 in F3.
    change (awake_one (mkThread (Push itemj :: restj) true)) with 0 in F3. lia.
  - intros tid th _ Hspurious. congruence.
Qed.

(** A thread that is awake and has a call left does change the state
    when it runs: its call completes, or it goes to sleep. *)
Lemma awake_thread_moves tid pick th s :
  threads s !! tid = Some th → asleep th = false → todo th ≠ [] →
  calls_left (step (Run tid pick) s).2 < calls_left s.
Proof.
  intros Hth Hawake Htodo.
  destruct (step_calls_left (Run tid pick) s eq_refl) as [Hsame|Hlt]; [|done].
  exfalso. revert Hsame. unfold step. rewrite Hth, Hawake.
  assert (∀ th', asleep th' = true ∨ todo th' ≠ todo th →
                 mkSys (chan s) (<[tid := th']> (threads s)) ≠ s) as Hne.
  { intros th' Hth' Heq. apply (f_equal threads) in Heq. simpl in Heq.
    apply (f_equal (.!! tid)) in Heq.
    rewrite list_lookup_insert_eq in Heq by (by eapply lookup_lt_Some).
    destruct Hth'; congruence. }
  destruct (todo th) as [|[item|] rest] eqn:Hcs; [done|..].
  - destruct (push item (chan s)) as [c'|] eqn:Hp; simpl.
    + intros Heq. apply (f_equal (fun s => length (q_ (chan s)))) in Heq.
      apply push_Some in Hp as [_ ->]. simpl in Heq. rewrite length_app in Heq.
      simpl in Heq. lia.
    + apply Hne. by left.
  - destruct (pop (chan s)) as [[item c']|] eqn:Hp; simpl.
    + intros Heq. apply (f_equal (fun s => length (q_ (chan s)))) in Heq.
      apply pop_Some in Hp as [Hq _]. simpl in Heq. rewrite Hq in Heq.
      simpl in Heq. lia.
    + apply Hne. by left.
Qed.

Lemma run_schedule_app (sched more : list move) : ∀ s,
  run (sched ++ more) s
  = ((run sched s).1 ++ (run more (run sched s).2).1, (run more (run sched s).2).2).
Proof.
  induction sched as [|m sched IH]; intros s.
  - simpl. by destruct (run more s).
  - rewrite <- app_comm_cons, !run_cons, IH. simpl. by rewrite app_assoc.
Qed.

Lemma nothing_left_finished s :
  total pushes_left (threads s) + total pops_left (threads s) = 0 → finished s.
Proof.
  intros Hzero tid th Hth.
  assert (pushes_left th = 0) as Hu by (eapply total_zero; [|done]; lia).
  assert (pops_left th = 0) as Hp by (eapply total_zero; [|done]; lia).
  destruct th as [[|[item|] rest] b]; [done|..]; unfold pushes_left, pops_left in *;
    simpl in *; done.
Qed.

(** From a state in which notifications have not been lost, producers
    and consumers with as many pops as pushes complete all their calls
    within [calls_left] moves of their own. *)
Lemma reaches_finished : ∀ n s,
  calls_left s ≤ n →
  (0 < max_size_ (chan s))%N →
  steady s → balanced s →
  Forall (fun th => one_sided (todo th) = true) (threads s) →
  ∃ more, Forall (fun m => unprompted m = true) more
          ∧ length more ≤ n
          ∧ total pushes_left (threads (run more s).2)
            + total pops_left (threads (run more s).2) = 0.
Proof.
  induction n as [|n IH]; intros s Hn Hcap Hsteady Hbal Hsided;
    (destruct (decide (total pushes_left (threads s) + total pops_left (threads s) = 0))
      as [Hdone|Hleft]; [by exists []; repeat split; simpl; try lia|]);
    destruct (some_thread_awake s Hcap Hsteady Hbal Hsided) as (tid & th & Hth & Hawake & Htodo);
    try lia;
    pose proof (awake_thread_moves tid 0 th s Hth Hawake Htodo) as Hlt; [lia|].
  destruct (IH (step (Run tid 0) s).2) as (more & Hall & Hlen & Hdone).
  - lia.
  - destruct (step_within (Run tid 0) s) as [_ ->]; [|done].
    destruct Hsteady as [Hsize _ _]. unfold size. lia.
  - by apply steady_step.
  - by apply balanced_step.
  - by apply one_sided_step.
  - exists (Run tid 0 :: more). split; [by constructor|]. split; [simpl; lia|].
    by rewrite run_cons.
Qed.

Lemma invariants_run (sched : list move) : ∀ s,
  steady s → balanced s →
  Forall (fun th => one_sided (todo th) = true) (threads s) →
  steady (run sched s).2 ∧ balanced (run sched s).2
  ∧ Forall (fun th => one_sided (todo th) = true) (threads (run sched s).2).
Proof.
  induction sched as [|m sched IH]; intros s Hs Hb Ho; [done|].
  rewrite run_cons. simpl.
  apply IH; [by apply steady_step|by apply balanced_step|by apply one_sided_step].
Qed.

(** X2. Producers and consumers do not deadlock.  Take a queue with
    room for at least one item and threads each of which only pushes or
    only pops, as in [main], with as many pops as pushes in all.  However
    the threads have been scheduled so far, spurious wakeups included: as
    long as a call is left, some thread with a call left is awake; every
    move by which a thread changes the state uses up one of
    [calls_left]; and within [calls_left] further moves of the threads
    themselves all calls are completed, the queue is empty, and the
    items popped are the items pushed, in the order pushed. *)
Theorem producers_and_consumers_finish
    (C : N) (programs : list (list (call T))) (sched : list move) :
  (0 < C)%N →
  Forall (fun p => one_sided p = true) programs →
  balanced (init C programs) →
  let s := (run sched (init C programs)).2 in
  (0 < total pushes_left (threads s) + total pops_left (threads s) →
   ∃ tid th, threads s !! tid = Some th ∧ asleep th = false ∧ todo th ≠ [])
  ∧ (∀ m, unprompted m = true →
       (step m s).2 = s ∨ calls_left (step m s).2 < calls_left s)
  ∧ ∃ more,
      Forall (fun m => unprompted m = true) more
      ∧ length more ≤ calls_left s
      ∧ finished (run (sched ++ more) (init C programs)).2
      ∧ q_ (chan (run (sched ++ more) (init C programs)).2) = []
      ∧ popped_items (run (sched ++ more) (init C programs)).1
        = pushed_items (run (sched ++ more) (init C programs)).1.
Proof.
  intros Hcap Hsided Hbal s.
  destruct (invariants_run sched (init C programs)) as (Hs & Hb & Ho);
    [apply steady_init|done| |].
  { simpl. apply Forall_fmap. by eapply Forall_impl. }
  fold s in Hs, Hb, Ho.
  assert (max_size_ (chan s) = C) as Hmax.
  { destruct (run_within sched (init C programs)) as [_ Hmax]; [|done].
    unfold size. simpl. lia. }
  split; [|split].
  - apply some_thread_awake; try done. by rewrite Hmax.
  - intros m Hm. by apply step_calls_left.
  - destruct (reaches_finished (calls_left s) s) as (more & Hall & Hlen & Hdone);
      try done; [by rewrite Hmax|].
    exists more. split; [done|]. split; [done|].
    rewrite run_schedule_app. simpl. fold s.
    destruct (invariants_run more s Hs Hb Ho) as (_ & Hb' & _).
    assert (q_ (chan (run more s).2) = []) as Hempty.
    { unfold balanced in Hb'. apply nil_length_inv. lia. }
    split; [by apply nothing_left_finished|]. split; [done|].
    pose proof (fifo_any_interleaving C programs (sched ++ more)) as Hfifo.
    rewrite run_schedule_app in Hfifo. simpl in Hfifo. fold s in Hfifo.
    rewrite Hempty, app_nil_r in Hfifo. done.
Qed.

(** *** No item is lost *)

Lemma flat_map_insert {A B} (h : A → list B) (l : list A) i x y :
  l !! i = Some x →
  flat_map h (<[i := y]> l) ++ h x ≡ₚ flat_map h l ++ h y.
Proof.
  revert i. induction l as [|x0 l IH]; intros [|i] Hi; simplify_eq/=.
  - solve_Permutation.
  - rewrite <- !(assoc_L (++)). by rewrite IH.
Qed.

Lemma to_push_notify (cv : thread T → bool) pick ths :
  to_push (notify_one cv pick ths) ≡ₚ to_push ths.
Proof.
  destruct (notify_one_spec cv pick ths) as [[_ ->]|(j & thj & Hj & _ & ->)]; [done|].
  pose proof (flat_map_insert (fun th => pushed_by (todo th)) ths j thj (awaken thj) Hj)
    as Hperm.
  simpl in Hperm. by apply (inj (.++ pushed_by (todo thj))) in Hperm.
Qed.

Lemma to_push_step m s :
  pushed_items (match (step m s).1 with Some e => [e] | None => [] end)
  ++ to_push (threads (step m s).2)
  ≡ₚ to_push (threads s).
Proof.
  apply (step_elim_event
           (fun e s' => pushed_items (match e with Some e => [e] | None => [] end)
                        ++ to_push (threads s') ≡ₚ to_push (threads s)));
    [done|..].
  - intros tid th Hth _ _ _. simpl.
    pose proof (flat_map_insert (fun th => pushed_by (todo th)) (threads s) tid th
                  (mkThread (todo th) true) Hth) as Hperm.
    simpl in Hperm. by apply (inj (.++ pushed_by (todo th))) in Hperm.
  - intros tid pick th item rest Hth _ Htodo _ _. simpl.
    rewrite to_push_notify.
    pose proof (flat_map_insert (fun th => pushed_by (todo th)) (threads s) tid th
                  (mkThread rest false) Hth) as Hperm.
    simpl in Hperm. rewrite Htodo in Hperm. simpl in Hperm.
    apply (inj (.++ pushed_by rest)). unfold to_push. rewrite <- Hperm.
    solve_Permutation.
  - intros tid pick th item rest q' Hth _ Htodo _ _. simpl.
    rewrite to_push_notify.
    pose proof (flat_map_insert (fun th => pushed_by (todo th)) (threads s) tid th
                  (mkThread rest false) Hth) as Hperm.
    simpl in Hperm. rewrite Htodo in Hperm. simpl in Hperm.
    by apply (inj (.++ pushed_by rest)) in Hperm.
  - intros tid th Hth _. simpl.
    pose proof (flat_map_insert (fun th => pushed_by (todo th)) (threads s) tid th
                  (awaken th) Hth) as Hperm.
    simpl in Hperm. by apply (inj (.++ pushed_by (todo th))) in Hperm.
Qed.

Lemma to_push_run (sched : list move) : ∀ s,
  pushed_items (run sched s).1 ++ to_push (threads (run sched s).2)
  ≡ₚ to_push (threads s).
Proof.
  induction sched as [|m sched IH]; intros s; [done|].
  rewrite run_cons. simpl. unfold pushed_items. rewrite flat_map_app.
  rewrite <- (to_push_step m s), <- (IH (step m s).2).
  unfold pushed_items. by rewrite <- app_assoc.
Qed.

Lemma to_push_init (C : N) (programs : list (list (call T))) :
  to_push (threads (init C programs)) = flat_map pushed_by programs.
Proof.
  unfold to_push, init. cbn [threads].
  induction programs as [|p programs IH]; [done|].
  rewrite fmap_cons. cbn [flat_map todo]. by rewrite IH.
Qed.

(** X3. No item is lost, none is handed out twice, and none overtakes
    another, however many threads push and pop and however they are
    scheduled.  At every moment the items pushed so far are, in the order
    pushed, the items popped so far followed by the items in the queue;
    and the items popped, the items in the queue and the items that the
    threads have yet to push are together exactly the items that the
    programs push, each as often as it is pushed. *)
Theorem items_accounted_for (C : N) (programs : list (list (call T))) (sched : list move) :
  let r := run sched (init C programs) in
  pushed_items r.1 = popped_items r.1 ++ q_ (chan r.2)
  ∧ popped_items r.1 ++ q_ (chan r.2) ++ to_push (threads r.2)
    ≡ₚ flat_map pushed_by programs.
Proof.
  intros r. pose proof (fifo_any_interleaving C programs sched) as Hfifo.
  fold r in Hfifo. split; [done|].
  rewrite <- (to_push_init C programs), <- (to_push_run sched (init C programs)).
  fold r. rewrite Hfifo. by rewrite <- app_assoc.
Qed.

End Queue.

Import PCQMain.

Lemma producers_and_consumers_finish_witness :
  ∃ more,
    length more ≤ 84
    ∧ finished (run more start).2
    ∧ q_ (chan (run more start).2) = []
    ∧ popped_items (run more start).1 = pushed_items (run more start).1.
Proof.
  destruct (producers_and_consumers_finish 5 programs []) as (_ & _ & more & _ & Hlen & Hdone);
    [done|by repeat constructor|by vm_compute|].
  exists more. split; [exact Hlen|exact Hdone].
Defined.

End PCQProgressFacts.

(** ** More about the pool *)

Module PoolTraceFacts.
Import ThreadPool PoolTrace ThreadPoolFacts.
Section Pool.
Context {World : Type}.
Implicit Types (p : t World) (f task : Task World) (s : sys World)
  (ws : list (worker World)) (m : move).

Lemma enqueue_all_open (fs : list (Task World)) : ∀ p,
  stop p = false → enqueue_all fs p = (None, mk (tasks p ++ fs) false).
Proof.
  induction fs as [|f fs IH]; intros p Hopen; simpl.
  - rewrite app_nil_r. destruct p; simpl in *; by subst.
  - rewrite enqueue_open by done. rewrite IH by done. simpl.
    by rewrite <- app_assoc.
Qed.

(** X4. The task queue of the pool has no bound.  On a pool that is not
    stopped, any number of [enqueue] calls in a row go through without
    throwing, whatever the queue already holds, and append the tasks in
    call order; on a new pool, as many passes through the worker's locked
    block then hand the same tasks out in the same order and leave the
    queue empty. *)
Theorem enqueue_then_take (fs : list (Task World)) :
  (∀ p, stop p = false → enqueue_all fs p = (None, mk (tasks p ++ fs) false))
  ∧ ∃ p, enqueue_all fs make = (None, p)
         ∧ take_n (length fs) p = Some (fs, make).
Proof.
  split; [apply enqueue_all_open|].
  exists (mk fs false). split.
  - by rewrite enqueue_all_open.
  - rewrite <- (app_nil_r fs) at 2. apply take_n_app.
Qed.

(** *** The order in which tasks are handed out *)

Lemma handed_step m s :
  tasks (pool s) ++ pending (main s)
  = match handed m s with Some task => [task] | None => [] end
    ++ tasks (pool (step m s)) ++ pending (main (step m s)).
Proof.
  unfold handed, step. destruct (terminated s); [done|].
  destruct m as [pick|i|i].
  - unfold owner_step.
    destruct (main s) as [[|f rest]|rest| |k|] eqn:Hm; simpl; rewrite ?Hm; try done.
    + unfold enqueue. destruct (stop (pool s)); simpl; rewrite ?Hm; [done|].
      by rewrite <- app_assoc.
    + destruct (workers s !! k) as [[]|]; simpl; by rewrite ?Hm.
  - unfold worker_step. destruct (workers s !! i) as [[| |task|]|]; try done.
    + destruct (take (pool s)) as [| |task p'] eqn:Ht; try done.
      apply take_Takes in Ht as [-> _]. done.
    + destruct (task (world s)); done.
  - unfold spurious_wakeup. by destruct (workers s !! i) as [[]|].
Qed.

Lemma handed_out_run (sched : list move) : ∀ s,
  tasks (pool s) ++ pending (main s)
  = handed_out sched s ++ tasks (pool (run sched s)) ++ pending (main (run sched s)).
Proof.
  induction sched as [|m sched IH]; intros s; [done|].
  rewrite (handed_step m s). simpl. rewrite (IH (step m s)).
  by destruct (handed m s).
Qed.

(** X5. The workers are handed the tasks in the order in which the owner
    enqueues them: at every moment, the tasks handed out so far, followed
    by the tasks in the queue and the tasks not yet enqueued, are the
    owner's tasks in their order.  This holds for any number of workers,
    any schedule, and whatever the tasks do. *)
Theorem tasks_handed_out_in_order
    (num_threads : nat) (todo : list (Task World)) (w : World) (sched : list move) :
  handed_out sched (init num_threads todo w)
  ++ tasks (pool (run sched (init num_threads todo w)))
  ++ pending (main (run sched (init num_threads todo w)))
  = todo.
Proof. by rewrite <- handed_out_run. Qed.

(** X6. No task is lost and none is run twice: in every state the
    program reaches, each task of the owner is in exactly one place, not
    yet enqueued, in the queue, being run by a worker, or executed.  And
    no worker gives up early: a worker has exited only if [stop] is set
    and the queue is empty, and the queue stays empty from then on. *)
Theorem tasks_accounted_for
    (num_threads : nat) (todo : list (Task World)) (w : World) (sched : list move) :
  let s := run sched (init num_threads todo w) in
  todo ≡ₚ executed s ++ in_flight (workers s) ++ tasks (pool s) ++ pending (main s)
  ∧ length (workers s) = num_threads
  ∧ ∀ i, workers s !! i = Some Exited →
      stop (pool s) = true
      ∧ ∀ more, tasks (pool (run more s)) = [].
Proof.
  intros s.
  assert (consistent num_threads todo s) as Hc.
  { apply consistent_run, consistent_init. }
  split; [apply Hc|]. split; [apply Hc|].
  intros i Hi. split; [by apply (cons_exited _ _ _ Hc i)|].
  intros more.
  assert (consistent num_threads todo (run more s)) as Hc' by by apply consistent_run.
  assert (stop (pool (run more s)) = true) as Hstop.
  { apply run_stop. by apply (cons_exited _ _ _ Hc i). }
  destruct (cons_exited _ _ _ Hc i Hi) as [_ Hempty].
  pose proof (handed_out_run more s) as Hq. rewrite Hempty in Hq.
  pose proof (cons_stop _ _ _ Hc) as Hs.
  destruct (cons_exited _ _ _ Hc i Hi) as [Hs' _]. rewrite Hs' in Hs.
  destruct (main s) eqn:Hm; try done; simpl in Hq;
    symmetry in Hq; apply app_eq_nil in Hq as [_ Hq];
    by apply app_eq_nil in Hq as [? _].
Qed.

(** *** Queued tasks are not stranded *)

Lemma wake_first_active ws :
  ws ≠ [] → (∀ i, ws !! i ≠ Some Exited) →
  ∃ i x, wake_first ws !! i = Some x ∧ active x = true.
Proof.
  destruct ws as [|[| |task|] ws]; intros Hne Hno; [done|..].
  - by exists 0, Polling.
  - by exists 0, Polling.
  - by exists 0, (Running task).
  - by destruct (Hno 0).
Qed.

Lemma notify_one_active pick ws :
  ws ≠ [] → (∀ i, ws !! i ≠ Some Exited) →
  ∃ i x, notify_one pick ws !! i = Some x ∧ active x = true.
Proof.
  intros Hne Hno. unfold notify_one.
  destruct (ws !! pick) as [[| |task|]|] eqn:Hpick;
    try by apply wake_first_active.
  exists pick, Polling. split; [|done].
  apply list_lookup_insert_eq. by eapply lookup_lt_Some.
Qed.

Lemma set_worker_active i x s :
  i < length (workers s) → active x = true → has_taker (set_worker i x s).
Proof.
  intros Hi Hx. right. exists i, x. split; [|done].
  simpl. by apply list_lookup_insert_eq.
Qed.

Lemma taker_step (num_threads : nat) (todo : list (Task World)) m s :
  0 < num_threads →
  consistent num_threads todo s →
  (tasks (pool s) ≠ [] → has_taker s) →
  tasks (pool (step m s)) ≠ [] → has_taker (step m s).
Proof.
  intros Hpos Hc Hk. unfold step. destruct (terminated s); [done|].
  pose proof (cons_stop _ _ _ Hc) as Hstop.
  destruct m as [pick|i|i].
  - unfold owner_step.
    destruct (main s) as [[|f rest]|rest| |k|] eqn:Hm; simpl in *.
    + intros Hq. destruct (Hk Hq) as [[? ?]|Hact]; [congruence|by right].
    + rewrite enqueue_open by done. intros _. left. by eexists.
    + intros _. right. apply notify_one_active.
      * intros Hnil. pose proof (cons_workers _ _ _ Hc) as Hlen.
        rewrite Hnil in Hlen. simpl in Hlen. lia.
      * intros i Hi. destruct (cons_exited _ _ _ Hc i Hi). congruence.
    + intros Hq. destruct (Hk Hq) as [[? ?]|(i & x & Hi & Hx)]; [congruence|].
      right. exists i, (awaken x). cbn [workers set_main set_workers]. unfold notify_all.
      rewrite list_lookup_fmap, Hi. split; [done|]. by destruct x.
    + destruct (workers s !! k) as [[| |task|]|]; simpl; rewrite ?Hm;
        intros Hq; (destruct (Hk Hq) as [[? ?]|Hact]; [congruence|by right]).
    + intros Hq. destruct (Hk Hq) as [[? ?]|Hact]; [congruence|by right].
  - unfold worker_step.
    destruct (workers s !! i) as [[| |task|]|] eqn:Hi; try done.
    + apply lookup_lt_Some in Hi as Hlt.
      destruct (take (pool s)) as [| |task p'] eqn:Ht.
      * apply take_Waits in Ht as [_ Hq]. simpl. by intros ?.
      * apply take_Exits in Ht as [_ Hq]. simpl. by intros ?.
      * intros _. right. exists i, (Running task). split; [|done].
        simpl. by apply list_lookup_insert_eq.
    + apply lookup_lt_Some in Hi as Hlt.
      destruct (task (world s)) as [w'|w'|]; [| |done].
      * intros _. right. exists i, Polling. split; [|done].
        simpl. by apply list_lookup_insert_eq.
      * intros _. right. by exists i, (Running task).
  - unfold spurious_wakeup.
    destruct (workers s !! i) as [[| |task|]|] eqn:Hi; try done.
    intros _. apply set_worker_active; [by eapply lookup_lt_Some|done].
Qed.

Lemma taker_run (num_threads : nat) (todo : list (Task World)) (sched : list move) :
  0 < num_threads →
  ∀ s, consistent num_threads todo s →
  (tasks (pool s) ≠ [] → has_taker s) →
  tasks (pool (run sched s)) ≠ [] → has_taker (run sched s).
Proof.
  intros Hpos. induction sched as [|m sched IH]; intros s Hc Hk; [done|].
  simpl. apply IH; [by apply consistent_step|by eapply taker_step].
Qed.

(** X7. A queued task is never stranded with every worker asleep.  In a
    pool of at least one worker, whenever the queue is not empty, either
    the owner is at the [notify_one] of its [enqueue], or some worker is
    at the top of its loop or running a task and will look at the queue
    without being woken.  If the tasks return and no notification is
    pending, such a worker can move, by taking a task or by finishing the
    one it runs. *)
Theorem queued_task_has_a_taker
    (num_threads : nat) (todo : list (Task World)) (w : World) (sched : list move) :
  0 < num_threads →
  let s := run sched (init num_threads todo w) in
  tasks (pool s) ≠ [] →
  has_taker s
  ∧ (Forall always_returns todo →
     (∀ rest, main s ≠ Signalling rest) →
     ∃ i, moves_left (step (Work i) s) < moves_left s).
Proof.
  intros Hpos s Hq.
  assert (consistent num_threads todo s) as Hc.
  { apply consistent_run, consistent_init. }
  assert (has_taker s) as Htaker.
  { apply (taker_run num_threads todo); try done. apply consistent_init. }
  split; [done|]. intros Hret Hmain.
  assert (terminated s = false) as Hterm.
  { apply (run_not_terminated num_threads todo); [done|apply consistent_init|done]. }
  destruct Htaker as [[rest Hrest]|(i & x & Hi & Hx)]; [by destruct (Hmain rest)|].
  exists i. unfold step. rewrite Hterm. destruct x as [| |task|]; try done.
  - by apply worker_polls.
  - destruct (in_flight_returns _ _ _ _ _ Hc Hret Hi) as [w' Hrun].
    by apply (worker_returns _ _ _ _ Hi Hrun).
Qed.

(** *** One worker *)

Lemma run_in_turn_snoc (ts : list (Task World)) task : ∀ w w1 w2,
  run_in_turn ts w = Some w1 → task w1 = Returns w2 →
  run_in_turn (ts ++ [task]) w = Some w2.
Proof.
  induction ts as [|t ts IH]; intros w w1 w2; simpl.
  - intros [= ->] ->. done.
  - destruct (t w) as [w'| |]; try done. apply IH.
Qed.

(** With one worker: the tasks are where they are in the owner's order,
    the world is what the executed tasks have made of it, and a
    terminated program has not left the destructor. *)
Lemma serial_step (todo : list (Task World)) (w0 : World) m s :
  consistent 1 todo s →
  todo = executed s ++ in_flight (workers s) ++ tasks (pool s) ++ pending (main s)
  ∧ (terminated s = false → run_in_turn (executed s) w0 = Some (world s))
  ∧ (terminated s = true → main s ≠ Destroyed) →
  todo = executed (step m s) ++ in_flight (workers (step m s))
         ++ tasks (pool (step m s)) ++ pending (main (step m s))
  ∧ (terminated (step m s) = false →
     run_in_turn (executed (step m s)) w0 = Some (world (step m s)))
  ∧ (terminated (step m s) = true → main (step m s) ≠ Destroyed).
Proof.
  intros Hc (Horder & Hworld & Hterm). unfold step.
  destruct (terminated s) eqn:Ht.
  { split; [done|]. rewrite Ht. split; [done|]. intros _. by apply Hterm. }
  specialize (Hworld eq_refl). clear Hterm.
  pose proof (cons_workers _ _ _ Hc) as Hlen.
  pose proof (cons_stop _ _ _ Hc) as Hstop.
  destruct (workers s) as [|x [|]] eqn:Hws; try done. clear Hlen.
  unfold in_flight in *. simpl in Horder. rewrite app_nil_r in Horder.
  destruct m as [pick|i|i].
  - unfold owner_step.
    destruct (main s) as [[|f rest]|rest| |k|] eqn:Hm; simpl in Hstop, Horder;
      rewrite ?app_nil_r in Horder.
    + simpl. rewrite Hws, Ht. simpl. rewrite ?app_nil_r. done.
    + rewrite enqueue_open by done. simpl. rewrite Hws, Ht. simpl.
      rewrite ?app_nil_r. split; [|done]. rewrite Horder.
      by rewrite <- !app_assoc.
    + simpl. rewrite Hws, Ht. split; [|done].
      pose proof (notified_in_flight _ _ (notify_one_notified pick [x])) as Hn.
      unfold in_flight in Hn. rewrite Hn. simpl. rewrite ?app_nil_r; done.
    + simpl. rewrite Hws, Ht. split; [|done].
      pose proof (notified_in_flight _ _ (notify_all_notified [x])) as Hn.
      unfold in_flight in Hn. rewrite Hn. simpl. rewrite ?app_nil_r; done.
    + rewrite Hws. destruct k as [|k]; simpl.
      * destruct x; simpl in Horder |- *; rewrite ?Hws, ?Ht, ?Hm; simpl;
          rewrite ?app_nil_r; done.
      * rewrite Hws, Ht. simpl. rewrite ?app_nil_r. done.
    + rewrite Hws, Ht, Hm. simpl. rewrite ?app_nil_r. done.
  - unfold worker_step. rewrite Hws.
    destruct i as [|i]; simpl;
      [|rewrite Hws, Ht; simpl; rewrite ?app_nil_r; done].
    destruct x as [| |task|]; simpl in Horder |- *.
    + destruct (take (pool s)) as [| |task p'] eqn:Htake; simpl;
        rewrite ?Hws, ?Ht; simpl; rewrite ?app_nil_r; try done.
      apply take_Takes in Htake as [Hq _]. split; [|done].
      by rewrite Horder, Hq.
    + rewrite Hws, Ht. simpl. rewrite ?app_nil_r; done.
    + destruct (task (world s)) as [w'|w'|] eqn:Hrun; simpl; rewrite ?Hws, ?Ht; simpl.
      * split; [by rewrite Horder, <- !app_assoc|]. split; [|done].
        intros _. by eapply run_in_turn_snoc.
      * split; [done|]. split; [done|]. intros _ Hd.
        assert (workers s !! 0 = Some (Running task)) as H0 by by rewrite Hws.
        by specialize (cons_destroyed _ _ _ Hc 0 (Running task) Hd H0).
      * done.
    + rewrite Hws, Ht. simpl. rewrite ?app_nil_r; done.
  - unfold spurious_wakeup. rewrite Hws.
    destruct i as [|i]; simpl;
      [|rewrite Hws, Ht; simpl; rewrite ?app_nil_r; done].
    destruct x; simpl in Horder |- *; rewrite ?Hws, ?Ht; simpl;
      rewrite ?app_nil_r; done.
Qed.

Lemma serial_run (todo : list (Task World)) (w0 : World) (sched : list move) : ∀ s,
  consistent 1 todo s →
  todo = executed s ++ in_flight (workers s) ++ tasks (pool s) ++ pending (main s)
  ∧ (terminated s = false → run_in_turn (executed s) w0 = Some (world s))
  ∧ (terminated s = true → main s ≠ Destroyed) →
  todo = executed (run sched s) ++ in_flight (workers (run sched s))
         ++ tasks (pool (run sched s)) ++ pending (main (run sched s))
  ∧ (terminated (run sched s) = false →
     run_in_turn (executed (run sched s)) w0 = Some (world (run sched s)))
  ∧ (terminated (run sched s) = true → main (run sched s) ≠ Destroyed).
Proof.
  induction sched as [|m sched IH]; intros s Hc Hs; [done|].
  simpl. apply IH; [by apply consistent_step|by apply serial_step].
Qed.

(** X8. A pool of one worker is a serial executor.  Whatever the
    schedule, the tasks executed so far are the first of the owner's
    tasks, in the owner's order, and as long as no task has thrown the
    world is the one they leave when called one after the other.  When
    the destructor has returned, all the owner's tasks have been called in
    order. *)
Theorem single_worker_runs_in_order
    (todo : list (Task World)) (w : World) (sched : list move) :
  let s := run sched (init 1 todo w) in
  executed s `prefix_of` todo
  ∧ (terminated s = false → run_in_turn (executed s) w = Some (world s))
  ∧ (main s = Destroyed → executed s = todo ∧ run_in_turn todo w = Some (world s)).
Proof.
  intros s.
  assert (consistent 1 todo s) as Hc by apply consistent_run, consistent_init.
  destruct (serial_run todo w sched (init 1 todo w)) as (Horder & Hworld & Hterm).
  { apply consistent_init. }
  { by repeat split. }
  fold s in Horder, Hworld, Hterm.
  split; [by eexists|]. split; [done|].
  intros Hmain.
  assert (workers s !! 0 = Some Exited) as Hexit.
  { destruct (workers s !! 0) as [x|] eqn:H0.
    - by rewrite (cons_destroyed _ _ _ Hc 0 x Hmain H0).
    - apply lookup_ge_None in H0. rewrite (cons_workers _ _ _ Hc) in H0. lia. }
  destruct (consistent_all_exited 1 todo s) as (_ & Hq & _); [lia|done| |].
  { intros i Hi. by replace i with 0 by lia. }
  assert (in_flight (workers s) = []) as Hfl.
  { apply in_flight_idle. intros i x Hi.
    by rewrite (cons_destroyed _ _ _ Hc i x Hmain Hi). }
  rewrite Hfl, Hq, Hmain in Horder. simpl in Horder. rewrite app_nil_r in Horder.
  assert (terminated s = false) as Hlive.
  { destruct (terminated s) eqn:Ht; [|done]. by destruct (Hterm eq_refl). }
  split; [done|]. rewrite Horder at 1. by apply Hworld.
Qed.

End Pool.

Import PoolDemo.

Lemma enqueue_then_take_witness :
  enqueue_all [say 2; say 3] (mk [say 1] false)
  = (None, mk [say 1; say 2; say 3] false).
Proof.
  destruct (enqueue_then_take [say 2; say 3]) as [Hall _].
  apply (Hall (mk [say 1] false)). reflexivity.
Defined.

Lemma tasks_accounted_for_witness :
  let mid := run (firstn 11 shutdown_schedule) (init 2 [say 1; say 2; say 3] []) in
  let s := run shutdown_schedule (init 2 [say 1; say 2; say 3] []) in
  (executed mid = [say 1] ∧ in_flight (workers mid) = [say 2]
   ∧ tasks (pool mid) = [say 3] ∧ pending (main mid) = [])
  ∧ [say 1; say 2; say 3]
    ≡ₚ executed mid ++ in_flight (workers mid) ++ tasks (pool mid) ++ pending (main mid)
  ∧ length (workers mid) = 2
  ∧ [say 1; say 2; say 3]
    ≡ₚ executed s ++ in_flight (workers s) ++ tasks (pool s) ++ pending (main s)
  ∧ length (executed s) = 3
  ∧ workers s = [Exited; Exited]
  ∧ stop (pool s) = true
  ∧ ∀ more, tasks (pool (run more s)) = [].
Proof.
  intros mid s.
  destruct (tasks_accounted_for 2 [say 1; say 2; say 3] [] (firstn 11 shutdown_schedule))
    as (Hmid & Hworkers & _).
  destruct (tasks_accounted_for 2 [say 1; say 2; say 3] [] shutdown_schedule)
    as (Hall & _ & Hexited).
  destruct (Hexited 0) as [Hstop Hempty]; [reflexivity|].
  split; [by repeat split|].
  split; [exact Hmid|]. split; [exact Hworkers|]. split; [exact Hall|].
  split; [reflexivity|]. split; [reflexivity|]. split; [exact Hstop|exact Hempty].
Defined.

Lemma queued_task_has_a_taker_witness :
  let s := run ([Work 0; Work 1] ++ submit_one) (init 2 [say 1; say 2; say 3] []) in
  has_taker s
  ∧ ∃ i, moves_left (step (Work i) s) < moves_left s.
Proof.
  intros s.
  destruct (queued_task_has_a_taker 2 [say 1; say 2; say 3] []
              ([Work 0; Work 1] ++ submit_one)) as [Htaker Hmove];
    [lia|discriminate|].
  split; [exact Htaker|]. apply Hmove.
  - repeat constructor; intros w; eexists; reflexivity.
  - intros rest. discriminate.
Defined.

Lemma single_worker_runs_in_order_witness :
  let s := run (submit_one ++ submit_one ++ begin_shutdown
                ++ [Work 0; Work 0; Work 0; Work 0; Work 0; Own 0; Own 0])
             (init 1 [say 1; say 2] []) in
  executed s = [say 1; say 2] ∧ run_in_turn [say 1; say 2] [] = Some (world s).
Proof.
  intros s.
  destruct (single_worker_runs_in_order [say 1; say 2] []
              (submit_one ++ submit_one ++ begin_shutdown
               ++ [Work 0; Work 0; Work 0; Work 0; Work 0; Own 0; Own 0]))
    as (_ & _ & Hdone).
  destruct Hdone as [Hexec Hworld]; [reflexivity|].
  split; [exact Hexec|exact Hworld].
Defined.

End PoolTraceFacts.

(** ** Colours, pixels and the preview *)

Module RenderFacts.
Import Mandelbrot Render.

(** The checks below run the binary64 arithmetic on every value of a
    finite range. *)
Lemma seqZ_all (P : Z → bool) (lo len : Z) :
  forallb P (seqZ lo len) = true → ∀ n, (lo ≤ n < lo + len)%Z → P n = true.
Proof.
  intros Hall n Hn. rewrite forallb_forall in Hall. apply Hall.
  apply list_elem_of_In, elem_of_seqZ. lia.
Qed.

Lemma color_checked :
  forallb (fun n => (mapIterationsToColor n =? 255 * n / 100)%Z) (seqZ 0 100) = true.
Proof. vm_compute. reflexivity. Qed.

Lemma color_below_max (iterations : Z) :
  (0 ≤ iterations < MAX_ITERATIONS)%Z →
  mapIterationsToColor iterations = (255 * iterations / 100)%Z.
Proof.
  intros Hrange. apply Z.eqb_eq.
  apply (seqZ_all _ 0 100 color_checked). unfold MAX_ITERATIONS in Hrange. lia.
Qed.

Lemma color_range (iterations : Z) :
  (0 ≤ iterations ≤ MAX_ITERATIONS)%Z →
  (0 ≤ mapIterationsToColor iterations ≤ 252)%Z.
Proof.
  intros Hrange. unfold MAX_ITERATIONS in *.
  destruct (decide (iterations = 100%Z)) as [->|Hmax]; [by vm_compute|].
  rewrite color_below_max by (unfold MAX_ITERATIONS; lia). split.
  - apply Z.div_pos; lia.
  - assert (255 * iterations / 100 < 253)%Z; [|lia].
    apply Z.div_lt_upper_bound; lia.
Qed.

(** X9. On the iteration counts that [mandelbrotIterations] returns, the
    binary64 computation of [mapIterationsToColor] agrees with integer
    arithmetic: the colour is 0 for [MAX_ITERATIONS] and the integer
    quotient [255 * iterations / 100] below it, with no rounding error in
    the truncation; so it lies between 0 and 252. *)
Theorem mapIterationsToColor_exact (iterations : Z) :
  (0 ≤ iterations ≤ MAX_ITERATIONS)%Z →
  mapIterationsToColor iterations
  = (if (iterations =? MAX_ITERATIONS)%Z then 0 else 255 * iterations / 100)%Z
  ∧ (0 ≤ mapIterationsToColor iterations ≤ 252)%Z.
Proof.
  intros Hrange. split; [|by apply color_range].
  unfold MAX_ITERATIONS in *.
  destruct (iterations =? 100)%Z eqn:Hmax.
  - apply Z.eqb_eq in Hmax as ->. by vm_compute.
  - apply Z.eqb_neq in Hmax.
    apply color_below_max. unfold MAX_ITERATIONS. lia.
Qed.

(** X10. Below [MAX_ITERATIONS] a later escape never gives a darker
    colour, and the colour 0 is shared by the points that escape at the
    first step and the points that never escape. *)
Theorem mapIterationsToColor_monotone (a b : Z) :
  (0 ≤ a ≤ b)%Z → (b < MAX_ITERATIONS)%Z →
  (mapIterationsToColor a ≤ mapIterationsToColor b)%Z
  ∧ (mapIterationsToColor a = 0%Z ↔ a = 0%Z)
  ∧ mapIterationsToColor MAX_ITERATIONS = 0%Z.
Proof.
  intros Hab Hb.
  rewrite !color_below_max by lia. split; [|split].
  - apply Z.div_le_mono; lia.
  - split.
    + intros Hzero. destruct (decide (a = 0%Z)) as [|Hpos]; [done|].
      assert (1 ≤ 255 * a / 100)%Z; [|lia].
      apply Z.div_le_lower_bound; lia.
    + by intros ->.
  - reflexivity.
Qed.

(** X11. What the preview prints for a pixel, by the iteration count of
    its point: [#] for the points that escape within the first 20 steps
    and for those that never escape, [*] for the steps 20 to 58, and [.]
    for the steps 59 to 99. *)
Theorem preview_char_by_iterations (iterations : Z) :
  (0 ≤ iterations ≤ MAX_ITERATIONS)%Z →
  preview_char (mapIterationsToColor iterations)
  = if decide (iterations ≤ 19 ∨ iterations = MAX_ITERATIONS)%Z then "#"
    else if decide (iterations ≤ 58)%Z then "*" else ".".
Proof.
  intros Hrange. unfold MAX_ITERATIONS in *.
  destruct (decide (iterations = 100%Z)) as [->|Hmax]; [reflexivity|].
  rewrite color_below_max by (unfold MAX_ITERATIONS; lia).
  unfold preview_char.
  assert (255 * iterations / 100 < 50 ↔ iterations ≤ 19)%Z as H50.
  { split; intros H.
    - destruct (decide (iterations ≤ 19)%Z); [done|].
      assert (51 ≤ 255 * iterations / 100)%Z; [|lia].
      apply Z.div_le_lower_bound; lia.
    - apply Z.div_lt_upper_bound; lia. }
  assert (255 * iterations / 100 < 150 ↔ iterations ≤ 58)%Z as H150.
  { split; intros H.
    - destruct (decide (iterations ≤ 58)%Z); [done|].
      assert (150 ≤ 255 * iterations / 100)%Z; [|lia].
      apply Z.div_le_lower_bound; lia.
    - apply Z.div_lt_upper_bound; lia. }
  repeat case_decide; repeat case_match;
    rewrite ?Z.ltb_lt, ?Z.ltb_ge in *; try done; lia.
Qed.

Lemma real_checked :
  forallb (fun x => PrimFloat.leb MIN_REAL (pixel_real x)
                    && PrimFloat.ltb (pixel_real x) MAX_REAL
                    && PrimFloat.ltb (pixel_real x) (pixel_real (x + 1)))
    (seqZ 0 IMAGE_WIDTH) = true.
Proof. vm_compute. reflexivity. Qed.

Lemma imaginary_checked :
  forallb (fun y => PrimFloat.ltb MIN_IMAGINARY (pixel_imaginary y)
                    && PrimFloat.leb (pixel_imaginary y) MAX_IMAGINARY
                    && PrimFloat.ltb (pixel_imaginary (y + 1)) (pixel_imaginary y))
    (seqZ 0 IMAGE_HEIGHT) = true.
Proof. vm_compute. reflexivity. Qed.

(** X12. Every pixel of the image is given a point of the window: the
    real part of column [x] is in [[MIN_REAL, MAX_REAL)] and grows from
    each column to the next; the imaginary part of row [y] is in
    [(MIN_IMAGINARY, MAX_IMAGINARY]] and falls from each row to the next;
    the top left pixel is the corner [MIN_REAL + MAX_IMAGINARY i]. *)
Theorem pixel_in_window (x y : Z) :
  (0 ≤ x < IMAGE_WIDTH)%Z → (0 ≤ y < IMAGE_HEIGHT)%Z →
  PrimFloat.leb MIN_REAL (pixel_real x) = true
  ∧ PrimFloat.ltb (pixel_real x) MAX_REAL = true
  ∧ PrimFloat.ltb (pixel_real x) (pixel_real (x + 1)) = true
  ∧ PrimFloat.ltb MIN_IMAGINARY (pixel_imaginary y) = true
  ∧ PrimFloat.leb (pixel_imaginary y) MAX_IMAGINARY = true
  ∧ PrimFloat.ltb (pixel_imaginary (y + 1)) (pixel_imaginary y) = true
  ∧ (pixel_real 0, pixel_imaginary 0) = (MIN_REAL, MAX_IMAGINARY).
Proof.
  intros Hx Hy.
  pose proof (seqZ_all _ 0 IMAGE_WIDTH real_checked x) as Hreal.
  pose proof (seqZ_all _ 0 IMAGE_HEIGHT imaginary_checked y) as Himag.
  simpl in Hreal, Himag.
  apply andb_prop in Hreal as [[Hr1 Hr2]%andb_prop Hr3]; [|lia].
  apply andb_prop in Himag as [[Hi1 Hi2]%andb_prop Hi3]; [|lia].
  repeat split; try done. 
Qed.

Section Image.
Variable std_pow : complex -> Z -> complex.
Variable std_abs : complex -> float.

Lemma pixel_color_range (x y : Z) :
  ∃ color, pixel_color std_pow std_abs x y = Some color ∧ (0 ≤ color ≤ 252)%Z.
Proof.
  unfold pixel_color, mandelbrotIterations.
  destruct (MandelbrotFacts.for_loop_from std_pow std_abs
              (Z.to_nat MAX_ITERATIONS) (pixel_real x, pixel_imaginary y) 0)
    as (n & Hn & Hrange & _); [lia|intros j Hj; lia|].
  change (Z.of_nat 0) with 0%Z in Hn. cbn [iterate] in Hn. rewrite Hn.
  exists (mapIterationsToColor n). split; [done|].
  apply color_range. simpl in Hrange. lia.
Qed.

(** X13. Whatever [std::pow] and [std::abs] compute, the loops of [main]
    fill [imageData] with [IMAGE_HEIGHT] rows of [IMAGE_WIDTH] colours,
    and every colour is between 0 and 252: the iteration count of each
    pixel's point is one that [mapIterationsToColor] maps into that
    range. *)
Theorem imageData_colors :
  length (imageData std_pow std_abs) = Z.to_nat IMAGE_HEIGHT
  ∧ ∀ row, row ∈ imageData std_pow std_abs →
      length row = Z.to_nat IMAGE_WIDTH
      ∧ ∀ entry, entry ∈ row →
          ∃ color, entry = Some color ∧ (0 ≤ color ≤ 252)%Z.
Proof.
  unfold imageData. split.
  - by rewrite length_fmap, length_seqZ.
  - intros row (y & -> & _)%list_elem_of_fmap. split.
    + by rewrite length_fmap, length_seqZ.
    + intros entry (x & -> & _)%list_elem_of_fmap. apply pixel_color_range.
Qed.

Lemma read_imageData (x y : Z) :
  (0 ≤ x < IMAGE_WIDTH)%Z → (0 ≤ y < IMAGE_HEIGHT)%Z →
  read (imageData std_pow std_abs) x y = pixel_color std_pow std_abs x y.
Proof.
  intros Hx Hy. unfold read, imageData.
  rewrite list_lookup_fmap, lookup_seqZ_lt by lia. cbn [fmap option_fmap option_map].
  rewrite list_lookup_fmap, lookup_seqZ_lt by lia. cbn [fmap option_fmap option_map].
  by rewrite !Z.add_0_l, !Z2Nat.id by lia.
Qed.

Lemma preview_cells :
  preview std_pow std_abs
  = (fun y => (fun x => preview_char <$> pixel_color std_pow std_abs x y) <$> seqZ 0 10)
      <$> seqZ 0 10.
Proof.
  unfold preview.
  change (Z.min 10 IMAGE_WIDTH) with 10%Z. change (Z.min 10 IMAGE_HEIGHT) with 10%Z.
  apply list_fmap_ext. intros i y [-> Hi]%lookup_seqZ.
  apply list_fmap_ext. intros j x [-> Hj]%lookup_seqZ.
  rewrite read_imageData; [done|unfold IMAGE_WIDTH; lia|unfold IMAGE_HEIGHT; lia].
Qed.

(** X14. The preview never reads outside [imageData], and prints the
    top left corner of the image: ten rows of ten characters, the one in
    row [y], column [x] being the character for the colour of pixel
    [(x, y)], one of [#], [*] and [.]. *)
Theorem preview_shows_corner :
  preview std_pow std_abs
  = (fun y => (fun x => preview_char <$> pixel_color std_pow std_abs x y) <$> seqZ 0 10)
      <$> seqZ 0 10
  ∧ Forall (fun row =>
              length row = 10
              ∧ Forall (fun cell => cell = Some "#" ∨ cell = Some "*" ∨ cell = Some ".")
                  row)
      (preview std_pow std_abs).
Proof.
  split; [apply preview_cells|]. rewrite preview_cells.
  apply Forall_fmap, Forall_forall. intros y _. cbv beta delta [compose]. split.
  - by rewrite length_fmap, length_seqZ.
  - apply Forall_fmap, Forall_forall. intros x _. cbv beta delta [compose].
    destruct (pixel_color_range x y) as (color & -> & _). simpl.
    unfold preview_char. repeat case_match; auto.
Qed.

End Image.

Lemma mapIterationsToColor_exact_witness :
  mapIterationsToColor 99 = 252%Z ∧ (0 ≤ mapIterationsToColor 99 ≤ 252)%Z.
Proof.
  destruct (mapIterationsToColor_exact 99) as [Hcolor Hrange]; [by vm_compute|].
  split; [exact Hcolor|exact Hrange].
Defined.

Lemma mapIterationsToColor_monotone_witness :
  (mapIterationsToColor 19 ≤ mapIterationsToColor 20)%Z.
Proof.
  apply (mapIterationsToColor_monotone 19 20); [lia|reflexivity].
Defined.

Lemma preview_char_by_iterations_witness :
  preview_char (mapIterationsToColor 59) = ".".
Proof. apply (preview_char_by_iterations 59). by vm_compute. Defined.

Lemma pixel_in_window_witness :
  PrimFloat.leb MIN_REAL (pixel_real 799) = true
  ∧ PrimFloat.ltb (pixel_real 799) MAX_REAL = true.
Proof.
  destruct (pixel_in_window 799 599) as (Hlow & Hhigh & _);
    [by vm_compute|by vm_compute|].
  by split.
Defined.

Import MandelbrotDemo.

(** With the library calls computed as in [MandelbrotDemo], the points
    of the first ten columns and rows all escape at the first step, and
    the preview that [main] prints is ten rows of ten [#]. *)
Example preview_printed :
  preview pow_by_mul abs_by_sqrt = replicate 10 (replicate 10 (Some "#")).
Proof.
  rewrite preview_cells.
  vm_compute. reflexivity.
Qed.

End RenderFacts.
